(** * Monthly base-rate / apartment-price predictor (src/app.py)

    A shallow embedding of the data pipeline of [app.py]:
    loading ([load_data], dropna on the rate and price columns), the
    sort by (region, date), the per-region [shift(lag_months)] of the rate
    column, the region / date-range filter, the dropna on the lagged rate,
    the [len >= 3] guard, the degree-2 polynomial least-squares fit of
    scikit-learn, the pandas/numpy Pearson correlation and the x range of
    the regression curve (line 110), where a text-typed rate column makes
    the script raise.

    Numbers are modelled exactly: rates and prices are rationals ([Q]),
    the correlation (which takes square roots) is a real number. *)

From Stdlib Require Import List Bool Arith Lia ZArith Ascii String.
From Stdlib Require Import Reals Lra.
From Stdlib Require Import QArith Qminmax Qring Qfield Qreals Lqa Sorting.Sorted Sorting.Permutation.
Import ListNotations.

Open Scope Q_scope.

(** ** Data model *)

(** A field of the CSV as pandas holds it after [read_csv]: a number, a
    missing value (NaN, an empty field or one of pandas' NA tokens), or a
    text that does not parse as a number. pandas types a whole column: one
    such text makes the column dtype [object], and then its numeric fields
    are held as strings too. The fit (line 92) and [Series.corr] (line 98)
    convert numeric strings to floats, so up to line 98 a [CNum] field reads
    the same in either column type; the column type itself is
    [rate_text] below, used for line 110. *)
Inductive cell : Type :=
| CNum (q : Q)
| CNA
| CText (s : string).

Definition notna (c : cell) : bool :=
  match c with CNA => false | _ => true end.

(** One row of [월별_아파트_기준금리_통합.csv]: 지역 (region), 날짜 (date, as
    a month index), 기준금리 (base rate) and 평균가격 (average price). *)
Record row : Type := mkRow {
  지역 : string;
  날짜 : Z;
  기준금리 : cell;
  평균가격 : cell
}.

(** A row of [data] after line 74, with the extra column 기준금리_시차. *)
Record lrow : Type := mkLrow {
  l_obs : row;
  기준금리_시차 : cell
}.

(** ** 2. load_data: [df.dropna(subset=["기준금리", "평균가격"])] *)
Definition load_data (df : list row) : list row :=
  filter (fun r => notna (기준금리 r) && notna (평균가격 r)) df.

(** ** 4. [data.sort_values(by=["지역", "날짜"])]

    pandas sorts on several keys with a stable sort; this is a stable
    insertion sort on the lexicographic key (region, date). *)
Definition key_leb (a b : row) : bool :=
  match String.compare (지역 a) (지역 b) with
  | Lt => true
  | Gt => false
  | Eq => Z.leb (날짜 a) (날짜 b)
  end.

Fixpoint insert_row (x : row) (l : list row) : list row :=
  match l with
  | [] => [x]
  | y :: t => if key_leb x y then x :: y :: t else y :: insert_row x t
  end.

Fixpoint sort_values (l : list row) : list row :=
  match l with
  | [] => []
  | x :: t => insert_row x (sort_values t)
  end.

(** ** 4. [data.groupby("지역")["기준금리"].shift(lag_months)]

    [prev] holds the rows already seen, most recent first; the value
    shifted into a row is the rate of the row [k] positions earlier in the
    same region's group, NaN when there is none. [shift(0)] copies the
    column. *)
Definition same_region (g : string) (r : row) : bool := String.eqb (지역 r) g.

Definition shift_val (k : nat) (earlier : list row) (r : row) : cell :=
  match k with
  | O => 기준금리 r
  | S k' =>
      match nth_error earlier k' with
      | Some p => 기준금리 p
      | None => CNA
      end
  end.

Fixpoint group_shift (k : nat) (prev : list row) (l : list row) : list lrow :=
  match l with
  | [] => []
  | r :: t =>
      mkLrow r (shift_val k (filter (same_region (지역 r)) prev) r)
        :: group_shift k (r :: prev) t
  end.

Definition shift_lag (k : nat) (data : list row) : list lrow :=
  group_shift k [] data.

(** The lag transform of the spec: line 74 followed by the dropna of line 81
    on the lagged column. *)
Definition dropna_lag (t : list lrow) : list lrow :=
  filter (fun lr => notna (기준금리_시차 lr)) t.

Definition apply_lag (k : nat) (data : list row) : list lrow :=
  dropna_lag (shift_lag k data).

(** ** 5. Filtering (lines 79-81) *)
Definition in_selection (sel : string) (start_date end_date : Z) (lr : lrow) : bool :=
  String.eqb (지역 (l_obs lr)) sel
  && Z.leb start_date (날짜 (l_obs lr)) && Z.leb (날짜 (l_obs lr)) end_date.

Definition region_data (df : list row) (sel : string) (start_date end_date : Z)
    (lag_months : nat) : list lrow :=
  let data := sort_values (load_data df) in
  let data := shift_lag lag_months data in
  let rd := filter (in_selection sel start_date end_date) data in
  filter (fun lr => notna (기준금리_시차 lr) && notna (평균가격 (l_obs lr))) rd.

(** ** 6. The regression inputs

    [X = region_data[["기준금리_시차"]]], [y = region_data["평균가격"]].
    scikit-learn converts both to float64; a text field makes that
    conversion raise ([ValueError: could not convert string to float]). *)
Definition to_pair (lr : lrow) : option (Q * Q) :=
  match 기준금리_시차 lr, 평균가격 (l_obs lr) with
  | CNum a, CNum b => Some (a, b)
  | _, _ => None
  end.

Fixpoint to_numeric (rd : list lrow) : option (list (Q * Q)) :=
  match rd with
  | [] => Some []
  | lr :: t =>
      match to_pair lr, to_numeric t with
      | Some p, Some w => Some (p :: w)
      | _, _ => None
      end
  end.

Definition qsum (l : list Q) : Q := fold_right Qplus 0 l.

Definition qlen {A} (l : list A) : Q := inject_Z (Z.of_nat (List.length l)).

Definition mean (l : list Q) : Q := qsum l / qlen l.

(** ** The pipeline [make_pipeline(PolynomialFeatures(degree=2), LinearRegression())]

    [PolynomialFeatures(degree=2)] maps a rate [x] to [1, x, x^2].
    [LinearRegression] (with [fit_intercept=True]) centres every feature
    column and the target on their means, solves the centred problem with
    [scipy.linalg.lstsq] (the least-squares solution of minimal norm) and
    sets [intercept_ = y_mean - X_mean @ coef_]. *)
Definition feat0 (x : Q) : Q := 1.
Definition feat1 (x : Q) : Q := x.
Definition feat2 (x : Q) : Q := x * x.

Record coef : Type := mkCoef { w0 : Q; w1 : Q; w2 : Q }.

Section Fit.
Variable w : list (Q * Q).

Definition xs : list Q := map fst w.
Definition ys : list Q := map snd w.
Definition m0 : Q := mean (map feat0 xs).
Definition m1 : Q := mean (map feat1 xs).
Definition m2 : Q := mean (map feat2 xs).
Definition my : Q := mean ys.

  (** Residual of one observation in the centred problem. *)
Definition resid (c : coef) (p : Q * Q) : Q :=
    (snd p - my)
    - (w0 c * (feat0 (fst p) - m0) + w1 c * (feat1 (fst p) - m1)
       + w2 c * (feat2 (fst p) - m2)).

Definition ssr (c : coef) : Q := qsum (map (fun p => resid c p * resid c p) w).

Definition coef_norm (c : coef) : Q := w0 c * w0 c + w1 c * w1 c + w2 c * w2 c.

  (** [c] is what [lstsq] returns: a least-squares solution, and of all
      least-squares solutions one of minimal norm. *)
Definition fit_spec (c : coef) : Prop :=
    (forall c', ssr c <= ssr c')
    /\ (forall c', ssr c' <= ssr c -> coef_norm c <= coef_norm c').

Definition intercept (c : coef) : Q := my - (w0 c * m0 + w1 c * m1 + w2 c * m2).

  (** [poly_model.predict(np.array([[input_rate]]))]: the same expansion
      applied to the query rate. *)
Definition predict (c : coef) (q : Q) : Q :=
    intercept c + (w0 c * feat0 q + w1 c * feat1 q + w2 c * feat2 q).
End Fit.

Close Scope Q_scope.

(** ** 7. [region_data["기준금리_시차"].corr(region_data["평균가격"])]

    pandas calls [np.corrcoef(a, b)[0, 1]]: the covariance matrix with
    [ddof=1], divided by the standard deviations on both sides, then
    clipped to [-1, 1]. A float64 division [0/0] gives NaN (numpy only
    warns), [x/0] with [x <> 0] gives an infinity. *)
Inductive fval : Type :=
| Num (r : R)
| NaN
| Inf (pos : bool).

Definition fdiv (a b : R) : fval :=
  if Req_EM_T b 0 then
    if Req_EM_T a 0 then NaN else Inf (if Rlt_dec 0 a then true else false)
  else Num (a / b).

(** Division of a float by a non-negative denominator. *)
Definition fdiv_v (v : fval) (b : R) : fval :=
  match v with
  | Num a => fdiv a b
  | NaN => NaN
  | Inf p => Inf p
  end.

Definition clip (v : fval) : fval :=
  match v with
  | Num r => Num (Rmax (-1) (Rmin r 1))
  | NaN => NaN
  | Inf p => Num (if p then 1 else -1)
  end.

Definition sxy (a b : list Q) : Q :=
  qsum (map (fun p => (fst p - mean a) * (snd p - mean b))%Q (combine a b)).

Definition cov (a b : list Q) : R :=
  Q2R (sxy a b / (qlen a - 1))%Q.

Definition corrcoef (a b : list Q) : fval :=
  clip (fdiv_v (fdiv (cov a b) (sqrt (cov a a))) (sqrt (cov b b))).

(** ** The whole script, for one setting of the widgets *)
Inductive outcome : Type :=
| Advisory                      (* st.warning(...) *)
| Crash                         (* an exception escapes the script *)
| Report (rd : list lrow) (w : list (Q * Q)) (corr : fval).

Definition is_empty {A} (l : list A) : bool :=
  match l with [] => true | _ => false end.

(** Lines 76-98: the outcome up to the correlation. The prediction (line
    93) and the correlation (line 98) of a [Report] are computed here; what
    the chart code of line 110 does is [script] below. *)
Definition predictor (df : list row) (sel : string) (start_date end_date : Z)
    (lag_months : nat) : outcome :=
  let rd := region_data df sel start_date end_date lag_months in
  if negb (is_empty rd) && (3 <=? List.length rd)%nat then
    match to_numeric rd with
    | Some w => Report rd w (corrcoef (map fst w) (map snd w))
    | None => Crash
    end
  else Advisory.

(** Whether pandas types the 기준금리 column of the CSV as text: some rate
    field of the file (any row, any region, before the dropna of line 40,
    which does not re-type the column) is a non-numeric text. *)
Definition is_text (c : cell) : bool :=
  match c with CText _ => true | _ => false end.

Definition rate_text (df : list row) : bool :=
  existsb (fun r => is_text (기준금리 r)) df.

(** The run up to the end of the script. On a text-typed rate column,
    [X.min()] and [X.max()] of line 110 compare strings and [np.linspace]
    raises a [TypeError]; on a numeric column lines 99-139 raise nothing
    ([f"{corr:.3f}"] prints NaN as "nan"). *)
Definition script (df : list row) (sel : string) (start_date end_date : Z)
    (lag_months : nat) : outcome :=
  match predictor df sel start_date end_date lag_months with
  | Report rd w c => if rate_text df then Crash else Report rd w c
  | o => o
  end.

(** The prediction shown for the query rate [input_rate] in a report. *)
Definition prediction (o : outcome) (input_rate : Q) (p : Q) : Prop :=
  match o with
  | Report _ w _ => exists c, fit_spec w c /\ (p == predict w c input_rate)%Q
  | _ => False
  end.

(** The value line 74 puts at position [j] of a region's group [G]: the
    rate of the row [k] positions earlier, NaN when there is none. *)
Definition lag_at (k : nat) (G : list row) (j : nat) : cell :=
  if (k <=? j)%nat then
    match nth_error G (j - k) with Some p => 기준금리 p | None => CNA end
  else CNA.

Definition region_group (g : string) (data : list row) : list row :=
  filter (same_region g) data.

Definition lag_group (g : string) (t : list lrow) : list lrow :=
  filter (fun lr => same_region g (l_obs lr)) t.

(** The date-range test of line 80 on one row. *)
Definition in_range (start_date end_date : Z) (r : row) : bool :=
  Z.leb start_date (날짜 r) && Z.leb (날짜 r) end_date.

(** ** Concrete tables *)

(** Region "A", months 1 to 4, rate [m] and price [10 m] in month [m]. *)
Definition table_a : list row :=
  [mkRow "A" 1 (CNum 1) (CNum 10); mkRow "A" 2 (CNum 2) (CNum 20);
   mkRow "A" 3 (CNum 3) (CNum 30); mkRow "A" 4 (CNum 4) (CNum 40)].

(** Region "B", months 1 to 3, the rate held at 2 (zero spread). *)
Definition table_flat : list row :=
  [mkRow "B" 1 (CNum 2) (CNum 10); mkRow "B" 2 (CNum 2) (CNum 20);
   mkRow "B" 3 (CNum 2) (CNum 40)].




(** Region "C", the price held at 50. *)
Definition table_const : list row :=
  [mkRow "C" 1 (CNum 1) (CNum 50); mkRow "C" 2 (CNum 2) (CNum 50);
   mkRow "C" 3 (CNum 4) (CNum 50)].

(** The coefficient-wise midpoint of two coefficient vectors. *)
Definition mid_coef (c1 c2 : coef) : coef :=
  mkCoef ((w0 c1 + w0 c2) / 2)%Q ((w1 c1 + w1 c2) / 2)%Q ((w2 c1 + w2 c2) / 2)%Q.

(** ** Dates and month labels (lines 39, 41 and 54-63)

    After [pd.to_datetime] (line 39) a date of the CSV is a timestamp at
    midnight: a year, a month and a day. pandas compares timestamps
    chronologically. *)
Record ts : Type := mkTs {
  ts_year : Z;
  ts_month : Z;
  ts_day : Z
}.

Definition ts_compare (a b : ts) : comparison :=
  match Z.compare (ts_year a) (ts_year b) with
  | Eq =>
      match Z.compare (ts_month a) (ts_month b) with
      | Eq => Z.compare (ts_day a) (ts_day b)
      | c => c
      end
  | c => c
  end.

Definition ts_leb (a b : ts) : bool :=
  match ts_compare a b with Gt => false | _ => true end.

(** The character of a decimal digit [0 <= n <= 9]. *)
Definition digit (n : Z) : ascii := ascii_of_N (48 + Z.to_N n).

(** The decimal representation of [n >= 0], without padding. *)
Fixpoint dec_aux (fuel : nat) (n : Z) (acc : string) : string :=
  match fuel with
  | O => acc
  | S f =>
      let acc' := String (digit (n mod 10)) acc in
      if (n <? 10)%Z then acc' else dec_aux f (n / 10) acc'
  end.

Definition dec (n : Z) : string := dec_aux (S (Z.to_nat n)) n EmptyString.

(** [%m]: the month as two digits, zero-padded. *)
Definition pad2 (n : Z) : string :=
  String (digit (n / 10)) (String (digit (n mod 10)) EmptyString).

(** Line 41: [df["날짜"].dt.strftime("%Y년 %m월")], the 년월 label of a date
    ([%Y] is the year in decimal). Strings are the UTF-8 bytes. *)
Definition strftime_ym (d : ts) : string :=
  (dec (ts_year d) ++ "년 " ++ pad2 (ts_month d) ++ "월")%string.

(** [str.replace(old, new)]: every occurrence of a non-empty [old],
    from left to right and without overlaps, is replaced by [new]; [skip]
    counts the bytes of a match still to pass. On UTF-8 bytes this is the
    code-point replacement of Python, as a match of a whole UTF-8 text can
    only start on a character boundary. *)
Fixpoint replace_aux (old new : string) (skip : nat) (s : string) : string :=
  match s with
  | EmptyString => EmptyString
  | String c t =>
      match skip with
      | S k => replace_aux old new k t
      | O =>
          if String.prefix old s
          then (new ++ replace_aux old new (String.length old - 1) t)%string
          else String c (replace_aux old new O t)
      end
  end.

(** An empty [old] matches before every character and at the end. *)
Fixpoint insert_everywhere (new s : string) : string :=
  match s with
  | EmptyString => new
  | String c t => (new ++ String c (insert_everywhere new t))%string
  end.

Definition py_replace (old new s : string) : string :=
  match old with
  | EmptyString => insert_everywhere new s
  | String _ _ => replace_aux old new O s
  end.

(** [pd.to_datetime] on a string of the form "YYYY-MM-DD", the form that
    line 56 builds: the timestamp, when the fields form a valid date;
    [None] for a string of another form or an invalid date. *)
Definition digit_val (c : ascii) : option Z :=
  let n := N_of_ascii c in
  if (48 <=? n)%N && (n <=? 57)%N then Some (Z.of_N (n - 48)) else None.

Definition is_leap (y : Z) : bool :=
  ((y mod 4 =? 0) && negb (y mod 100 =? 0) || (y mod 400 =? 0))%Z.

Definition days_in_month (y m : Z) : Z :=
  if (m =? 2)%Z then (if is_leap y then 29 else 28)
  else if (m =? 4)%Z || (m =? 6)%Z || (m =? 9)%Z || (m =? 11)%Z then 30 else 31.

Definition parse_iso (s : string) : option ts :=
  match list_ascii_of_string s with
  | [y1; y2; y3; y4; s1; m1; m2; s2; d1; d2] =>
      match digit_val y1, digit_val y2, digit_val y3, digit_val y4,
            digit_val m1, digit_val m2, digit_val d1, digit_val d2 with
      | Some a, Some b, Some c, Some d, Some e, Some f, Some g, Some h =>
          let y := (1000 * a + 100 * b + 10 * c + d)%Z in
          let m := (10 * e + f)%Z in
          let dd := (10 * g + h)%Z in
          if Ascii.eqb s1 "-"%char && Ascii.eqb s2 "-"%char
             && (1 <=? m)%Z && (m <=? 12)%Z && (1 <=? dd)%Z && (dd <=? days_in_month y m)%Z
          then Some (mkTs y m dd) else None
      | _, _, _, _, _, _, _, _ => None
      end
  | _ => None
  end.

(** Lines 55-56: [ym_to_date]. *)
Definition ym_to_date (ym_str : string) : option ts :=
  parse_iso (py_replace "월" "-01" (py_replace "년 " "-" ym_str)).

(** Line 80 on timestamps: [(날짜 >= start_date) & (날짜 <= end_date)]. *)
Definition in_period (start_date end_date d : ts) : bool :=
  ts_leb start_date d && ts_leb d end_date.

(** [Series.unique()]: the distinct values in order of first appearance. *)
Fixpoint unique_aux (seen : list string) (l : list string) : list string :=
  match l with
  | [] => []
  | x :: t =>
      if existsb (String.eqb x) seen then unique_aux seen t
      else x :: unique_aux (x :: seen) t
  end.

Definition unique (l : list string) : list string := unique_aux [] l.

(** Python's [sorted] on strings (code-point order, which is the byte
    order of UTF-8): a stable insertion sort. *)
Fixpoint insert_str (x : string) (l : list string) : list string :=
  match l with
  | [] => [x]
  | y :: t => if String.leb x y then x :: y :: t else y :: insert_str x t
  end.

Fixpoint py_sorted (l : list string) : list string :=
  match l with
  | [] => []
  | x :: t => insert_str x (py_sorted t)
  end.

(** Line 50: [regions = sorted(data["지역"].unique())], the options of the
    region selectbox, over the loaded table. *)
Definition regions (data : list row) : list string :=
  py_sorted (unique (map 지역 data)).

(** Line 54: [ym_options = sorted(data["년월"].unique())], for the 날짜
    column [dates] of the loaded table. *)
Definition ym_options (dates : list ts) : list string :=
  py_sorted (unique (map strftime_ym dates)).

(** Python's [l[i]], a negative index counting from the end; [None] is an
    [IndexError]. *)
Definition py_index {A} (l : list A) (i : Z) : option A :=
  let j := if (0 <=? i)%Z then i else (Z.of_nat (List.length l) + i)%Z in
  if (j <? 0)%Z then None else nth_error l (Z.to_nat j).

(** Line 60: the default value [(ym_options[0], ym_options[-1])] of the
    period slider; [None] is the [IndexError] raised there. *)
Definition slider_default (opts : list string) : option (string * string) :=
  match py_index opts 0, py_index opts (-1) with
  | Some a, Some b => Some (a, b)
  | _, _ => None
  end.

(** ** The regression curve (line 110)

    [np.linspace(start, stop, num)]: [num] points [start + i * step] with
    [step = (stop - start) / (num - 1)], the last one set to [stop]. *)
Definition linspace (start stop : Q) (num : nat) : list Q :=
  let div := (num - 1)%nat in
  let y := map (fun i => inject_Z (Z.of_nat i) * ((stop - start) / inject_Z (Z.of_nat div)) + start)%Q
             (seq 0 num) in
  if (1 <? num)%nat then removelast y ++ [stop] else y.

(** [X.min()] and [X.max()] of the lagged-rate column on a numeric column
    (line 110 is reached only with at least 3 rows; on a text-typed column
    [script] raises there instead). *)
Definition qmin_list (l : list Q) : Q :=
  match l with [] => 0 | x :: t => fold_left Qmin t x end.

Definition qmax_list (l : list Q) : Q :=
  match l with [] => 0 | x :: t => fold_left Qmax t x end.

Definition curve_x (w : list (Q * Q)) : list Q :=
  linspace (qmin_list (map fst w)) (qmax_list (map fst w)) 100.

(** * Proofs *)

(** ** Generic list facts *)

Lemma filter_all_true {A} (f : A -> bool) (l : list A) :
  (forall x, In x l -> f x = true) -> filter f l = l.
Proof.
  induction l as [|a l IH]; intros H; simpl; auto.
  rewrite (H a (or_introl eq_refl)), IH; auto.
  intros x Hx; apply H; now right.
Qed.

Lemma filter_all_false {A} (f : A -> bool) (l : list A) :
  (forall x, In x l -> f x = false) -> filter f l = [].
Proof.
  induction l as [|a l IH]; intros H; simpl; auto.
  rewrite (H a (or_introl eq_refl)), IH; auto.
  intros x Hx; apply H; now right.
Qed.

Lemma filter_comm {A} (f g : A -> bool) (l : list A) :
  filter f (filter g l) = filter g (filter f l).
Proof.
  induction l as [|a l IH]; simpl; auto.
  destruct (g a) eqn:Eg, (f a) eqn:Ef; simpl; rewrite ?Eg, ?Ef, IH; auto.
Qed.

Lemma filter_filter_andb {A} (f g : A -> bool) (l : list A) :
  filter f (filter g l) = filter (fun x => g x && f x) l.
Proof.
  induction l as [|a l IH]; simpl; auto.
  destruct (g a); simpl; auto; destruct (f a); simpl; rewrite IH; auto.
Qed.

Lemma length_filter_le {A} (f : A -> bool) (l : list A) :
  (List.length (filter f l) <= List.length l)%nat.
Proof.
  induction l as [|a l IH]; simpl; auto; destruct (f a); simpl; lia.
Qed.

(** ** Line 74: the shift keeps the rows and their order *)

Lemma map_obs_group_shift k prev l : map l_obs (group_shift k prev l) = l.
Proof.
  revert prev; induction l as [|r t IH]; intros prev; simpl; auto.
  now rewrite IH.
Qed.

Lemma same_region_eq g r : same_region g r = true -> 지역 r = g.
Proof. unfold same_region; now rewrite String.eqb_eq. Qed.

Lemma shift_val_lag_at k P r L :
  shift_val k P r = lag_at k (rev P ++ r :: L) (List.length P).
Proof.
  unfold lag_at; destruct k as [|k'].
  - simpl; rewrite Nat.sub_0_r, nth_error_app2 by (rewrite length_rev; lia).
    now rewrite length_rev, Nat.sub_diag.
  - destruct (Nat.leb_spec (S k') (List.length P)) as [Hle|Hgt]; cbn [shift_val].
    + rewrite nth_error_app1 by (rewrite length_rev; lia).
      rewrite nth_error_rev.
      replace (Nat.ltb (List.length P - S k') (List.length P)) with true
        by (symmetry; apply Nat.ltb_lt; lia).
      now replace (List.length P - S (List.length P - S k')) with k' by lia.
    + now rewrite (proj2 (nth_error_None P k')) by lia.
Qed.

(** Every row of region [g] gets the rate of the row [k] positions earlier
    in the region's group, counting the rows already passed ([prev]). *)
Lemma group_shift_spec k g l : forall prev i lr,
  nth_error (lag_group g (group_shift k prev l)) i = Some lr ->
  let P := filter (same_region g) prev in
  let H := rev P ++ filter (same_region g) l in
  nth_error H (List.length P + i) = Some (l_obs lr)
  /\ 기준금리_시차 lr = lag_at k H (List.length P + i).
Proof.
  induction l as [|r t IH]; intros prev i lr Hi; simpl in *.
  - now destruct i.
  - destruct (same_region g r) eqn:Er; simpl in Hi.
    + pose proof (same_region_eq _ _ Er) as Hg; subst g.
      destruct i as [|i].
      * injection Hi as <-; simpl; split.
        -- rewrite Nat.add_0_r, nth_error_app2 by (rewrite length_rev; lia).
           now rewrite length_rev, Nat.sub_diag.
        -- rewrite Nat.add_0_r; apply shift_val_lag_at.
      * destruct (IH (r :: prev) i lr Hi) as [H1 H2]; simpl in H1, H2.
        rewrite Er in H1, H2; simpl in H1, H2.
        rewrite <- app_assoc in H1, H2; simpl in H1, H2.
        now replace (List.length (filter (same_region (지역 r)) prev) + S i)%nat
          with (S (List.length (filter (same_region (지역 r)) prev) + i)) by lia.
    + destruct (IH (r :: prev) i lr Hi) as [H1 H2]; simpl in H1, H2.
      now rewrite Er in H1, H2.
Qed.

Lemma shift_lag_spec k g data i lr :
  nth_error (lag_group g (shift_lag k data)) i = Some lr ->
  nth_error (region_group g data) i = Some (l_obs lr)
  /\ 기준금리_시차 lr = lag_at k (region_group g data) i.
Proof. intros H; exact (group_shift_spec k g data [] i lr H). Qed.

Lemma map_obs_lag_group k g data :
  map l_obs (lag_group g (shift_lag k data)) = region_group g data.
Proof.
  unfold lag_group, region_group.
  rewrite <- filter_map_swap; unfold shift_lag; now rewrite map_obs_group_shift.
Qed.

(** ** Lines 38-40 and 73: what the sorted table contains *)

Lemma insert_row_perm x l : Permutation (insert_row x l) (x :: l).
Proof.
  induction l as [|y t IH]; simpl; auto.
  destruct (key_leb x y); auto.
  eapply perm_trans; [apply perm_skip, IH | apply perm_swap].
Qed.

Lemma sort_values_perm l : Permutation (sort_values l) l.
Proof.
  induction l as [|x t IH]; simpl; auto.
  eapply perm_trans; [apply insert_row_perm | now apply perm_skip].
Qed.

Lemma in_sorted_loaded df r :
  In r (sort_values (load_data df)) ->
  In r df /\ notna (기준금리 r) = true /\ notna (평균가격 r) = true.
Proof.
  intros H; apply (Permutation_in _ (sort_values_perm _)) in H.
  unfold load_data in H; apply filter_In in H as [H1 H2].
  apply andb_prop in H2; tauto.
Qed.

(** ** The lag transform on one region *)

Lemma lag_group_apply_lag k g data :
  lag_group g (apply_lag k data) = dropna_lag (lag_group g (shift_lag k data)).
Proof. unfold apply_lag, dropna_lag, lag_group; apply filter_comm. Qed.

Lemma nth_error_in_firstn {A} k (l : list A) x :
  In x (firstn k l) -> exists i, (i < k)%nat /\ nth_error l i = Some x.
Proof.
  intros H; apply In_nth_error in H as [i Hi].
  rewrite nth_error_firstn in Hi.
  destruct (Nat.ltb_spec i k); [now exists i | discriminate].
Qed.

Lemma nth_error_in_skipn {A} k (l : list A) x :
  In x (skipn k l) -> exists i, nth_error l (k + i) = Some x.
Proof.
  intros H; apply In_nth_error in H as [i Hi].
  rewrite nth_error_skipn in Hi; now exists i.
Qed.

(** With every rate present, the dropna of line 81 removes exactly the
    first [k] rows of a region: those without a row [k] positions earlier. *)
Lemma dropna_lag_skipn k G T :
  map l_obs T = G ->
  (forall i lr, nth_error T i = Some lr -> 기준금리_시차 lr = lag_at k G i) ->
  (forall r, In r G -> notna (기준금리 r) = true) ->
  dropna_lag T = skipn k T.
Proof.
  intros HG Hlag Hna.
  rewrite <- (firstn_skipn k T) at 1; unfold dropna_lag; rewrite filter_app.
  rewrite (filter_all_false _ (firstn k T)), (filter_all_true _ (skipn k T)); auto.
  - intros x Hx; apply nth_error_in_skipn in Hx as [i Hi].
    rewrite (Hlag _ _ Hi); unfold lag_at.
    replace ((k <=? k + i)%nat) with true by (symmetry; apply Nat.leb_le; lia).
    replace (k + i - k)%nat with i by lia.
    assert (Hi' : nth_error G (k + i) = Some (l_obs x))
      by (subst G; rewrite nth_error_map, Hi; reflexivity).
    destruct (nth_error G i) as [p|] eqn:Hp.
    + apply Hna; eapply nth_error_In; eauto.
    + apply nth_error_None in Hp.
      assert (k + i < List.length G)%nat by (apply nth_error_Some; congruence).
      lia.
  - intros x Hx; apply nth_error_in_firstn in Hx as [i [Hik Hi]].
    rewrite (Hlag _ _ Hi); unfold lag_at.
    now replace ((k <=? i)%nat) with false by (symmetry; apply Nat.leb_gt; lia).
Qed.

Lemma loaded_rates_notna df g r :
  In r (region_group g (sort_values (load_data df))) -> notna (기준금리 r) = true.
Proof.
  unfold region_group; intros H; apply filter_In in H as [H _].
  now apply in_sorted_loaded in H.
Qed.

Lemma lag_group_apply_lag_skipn df k g :
  lag_group g (apply_lag k (sort_values (load_data df)))
  = skipn k (lag_group g (shift_lag k (sort_values (load_data df)))).
Proof.
  rewrite lag_group_apply_lag.
  apply (dropna_lag_skipn k (region_group g (sort_values (load_data df)))).
  - apply map_obs_lag_group.
  - intros i lr H; exact (proj2 (shift_lag_spec k g _ i lr H)).
  - intros r; apply loaded_rates_notna.
Qed.

Lemma length_apply_lag k data :
  (List.length (apply_lag k data) <= List.length data)%nat.
Proof.
  unfold apply_lag, dropna_lag.
  eapply Nat.le_trans; [apply length_filter_le|].
  rewrite <- (length_map l_obs (shift_lag k data)).
  unfold shift_lag; now rewrite map_obs_group_shift.
Qed.

Lemma group_shift_zero prev l :
  group_shift 0 prev l = map (fun r => mkLrow r (기준금리 r)) l.
Proof.
  revert prev; induction l as [|r t IH]; intros prev; simpl; auto.
  now rewrite IH.
Qed.

Lemma map_obs_apply_lag_group df k g :
  map l_obs (lag_group g (apply_lag k (sort_values (load_data df))))
  = skipn k (region_group g (sort_values (load_data df))).
Proof.
  rewrite (lag_group_apply_lag_skipn df k g).
  now rewrite <- skipn_map, map_obs_lag_group.
Qed.

Lemma apply_lag_group_nth df k g i lr :
  let data := sort_values (load_data df) in
  nth_error (lag_group g (apply_lag k data)) i = Some lr ->
  exists p, nth_error (region_group g data) i = Some p
         /\ nth_error (region_group g data) (i + k) = Some (l_obs lr)
         /\ 기준금리_시차 lr = 기준금리 p.
Proof.
  cbv zeta; rewrite (lag_group_apply_lag_skipn df k g).
  set (data := sort_values (load_data df)); intros Hi.
  rewrite nth_error_skipn in Hi.
  destruct (shift_lag_spec k g data (k + i) lr Hi) as [Hobs Hlag].
  unfold lag_at in Hlag.
  replace ((k <=? k + i)%nat) with true in Hlag by (symmetry; apply Nat.leb_le; lia).
  replace (k + i - k)%nat with i in Hlag by lia.
  destruct (nth_error (region_group g data) i) as [p|] eqn:Hp.
  - exists p; split; [reflexivity|split]; [now rewrite Nat.add_comm | exact Hlag].
  - apply nth_error_None in Hp.
    assert (k + i < List.length (region_group g data))%nat
      by (apply nth_error_Some; congruence).
    lia.
Qed.

(** ** C3 *)

(** C3: for every loaded table and every lag [k], the lag transform (line 74
    and the dropna of line 81) yields no more rows than its input; for each
    region [g], the rows it keeps are the region's group without its first
    [k] rows (the rows with no row [k] positions earlier), and the row kept
    at position [i] is group row [i + k], carrying the rate of group row
    [i]. Each region's rows depend on that region's group only. *)
Theorem apply_lag_within_region (df : list row) (k : nat) :
  let data := sort_values (load_data df) in
  (List.length (apply_lag k data) <= List.length data)%nat
  /\ forall g,
     map l_obs (lag_group g (apply_lag k data)) = skipn k (region_group g data)
     /\ forall i lr,
        nth_error (lag_group g (apply_lag k data)) i = Some lr ->
        exists p, nth_error (region_group g data) i = Some p
               /\ nth_error (region_group g data) (i + k) = Some (l_obs lr)
               /\ 기준금리_시차 lr = 기준금리 p.
Proof.
  cbv zeta; split; [apply length_apply_lag|]; intros g; split.
  - apply map_obs_apply_lag_group.
  - apply apply_lag_group_nth.
Qed.

(** ** C4 *)

(** C4: with [lag_months = 0] the lag transform is the identity: every row of
    the (sorted, loaded) table is kept, in the same order, and its lagged
    rate is its own rate. *)
Theorem apply_lag_zero_identity (df : list row) :
  let data := sort_values (load_data df) in
  apply_lag 0 data = map (fun r => mkLrow r (기준금리 r)) data.
Proof.
  cbv zeta; unfold apply_lag, shift_lag, dropna_lag.
  rewrite group_shift_zero, filter_all_true; auto.
  intros x Hx; apply in_map_iff in Hx as [r [<- Hr]]; simpl.
  now apply in_sorted_loaded in Hr.
Qed.

(** ** Lines 79-83: the working series *)

Lemma filter_ext_in_list {A} (f g : A -> bool) (l : list A) :
  (forall x, In x l -> f x = g x) -> filter f l = filter g l.
Proof.
  induction l as [|a l IH]; intros H; simpl; auto.
  rewrite (H a (or_introl eq_refl)), IH; auto.
  intros x Hx; apply H; now right.
Qed.

Lemma in_shift_lag_loaded df k lr :
  In lr (shift_lag k (sort_values (load_data df))) ->
  In (l_obs lr) (sort_values (load_data df)).
Proof.
  intros H; rewrite <- (map_obs_group_shift k []); now apply in_map.
Qed.

(** The working series is the selected region's lagged rows (C3) cut to the
    date range. *)
Lemma region_data_lag_group df sel s e k :
  region_data df sel s e k
  = filter (fun lr => in_range s e (l_obs lr))
      (lag_group sel (apply_lag k (sort_values (load_data df)))).
Proof.
  unfold region_data.
  set (data := sort_values (load_data df)).
  rewrite (filter_ext_in_list _ (fun lr => notna (기준금리_시차 lr))).
  - unfold lag_group, apply_lag, dropna_lag.
    rewrite (filter_comm _ (in_selection sel s e)).
    rewrite !filter_filter_andb; apply filter_ext; intros lr.
    unfold in_selection, in_range, same_region.
    now rewrite <- (andb_assoc (String.eqb _ _)).
  - intros lr Hlr; apply filter_In in Hlr as [Hlr _].
    apply in_shift_lag_loaded, in_sorted_loaded in Hlr as [_ [_ ->]].
    now rewrite andb_true_r.
Qed.

Lemma map_obs_region_data df sel s e k :
  map l_obs (region_data df sel s e k)
  = filter (in_range s e) (skipn k (region_group sel (sort_values (load_data df)))).
Proof.
  rewrite region_data_lag_group, <- map_obs_apply_lag_group.
  symmetry; apply filter_map_swap.
Qed.

Lemma length_region_data df sel s e k :
  List.length (region_data df sel s e k)
  = List.length (filter (in_range s e)
                   (skipn k (region_group sel (sort_values (load_data df))))).
Proof. now rewrite <- map_obs_region_data, length_map. Qed.

Lemma length_filter_skipn_S {A} (f : A -> bool) k (l : list A) :
  (List.length (filter f (skipn (S k) l)) <= List.length (filter f (skipn k l)))%nat.
Proof.
  rewrite <- (skipn_skipn 1 k); destruct (skipn k l) as [|a t]; simpl; auto.
  destruct (f a); simpl; lia.
Qed.

Lemma predictor_advisory df sel s e k :
  (List.length (region_data df sel s e k) < 3)%nat -> predictor df sel s e k = Advisory.
Proof.
  intros H; unfold predictor.
  replace ((3 <=? List.length (region_data df sel s e k))%nat) with false
    by (symmetry; apply Nat.leb_gt; lia).
  now rewrite andb_false_r.
Qed.

Lemma predictor_report df sel s e k rd w :
  region_data df sel s e k = rd ->
  (3 <= List.length rd)%nat ->
  to_numeric rd = Some w ->
  predictor df sel s e k = Report rd w (corrcoef (map fst w) (map snd w)).
Proof.
  intros Hrd Hlen Hw; unfold predictor; rewrite Hrd.
  replace ((3 <=? List.length rd)%nat) with true by (symmetry; now apply Nat.leb_le).
  rewrite Hw; destruct rd as [|x t]; [simpl in Hlen; lia|]; reflexivity.
Qed.

(** ** C1 *)

(** C1: whenever the working series (after the region / date filter and the
    dropna of line 81) has fewer than 3 rows, the script takes the
    [st.warning] branch: the outcome is [Advisory], which carries no fitted
    model, no prediction, no correlation and no chart. *)
Theorem insufficient_data_advisory (df : list row) (sel : string) (s e : Z)
    (k : nat) :
  (List.length (region_data df sel s e k) < 3)%nat ->
  predictor df sel s e k = Advisory.
Proof. apply predictor_advisory. Qed.

(** Two usable months (months 3 and 4 of region "A", lag 0). *)
Lemma insufficient_data_advisory_witness :
  List.length (region_data table_a "A" 3 4 0) = 2%nat
  /\ predictor table_a "A" 3 4 0 = Advisory.
Proof.
  split; [vm_compute; reflexivity|].
  apply insufficient_data_advisory; vm_compute; lia.
Defined.

Lemma in_region_data_nth df sel s e k lr :
  In lr (region_data df sel s e k) ->
  exists i p,
    nth_error (region_group sel (sort_values (load_data df))) (i + k) = Some (l_obs lr)
    /\ nth_error (region_group sel (sort_values (load_data df))) i = Some p
    /\ 기준금리_시차 lr = 기준금리 p.
Proof.
  rewrite region_data_lag_group; intros H; apply filter_In in H as [H _].
  apply In_nth_error in H as [i Hi].
  destruct (apply_lag_group_nth df k sel i lr Hi) as [p [Hp [Hobs Hlag]]].
  now exists i, p.
Qed.

(** ** C9 *)

(** C9: the lag is taken in the region's full sorted series, before the
    date-range filter: every row of the working series carries the rate of
    the row [k] positions before it in the whole region group, whatever the
    selected window; and on table [table_a] with the window months 2-4 and a
    lag of one month, the report contains a row (month 2) whose lagged rate
    is the rate of month 1, before the window's start. *)
Theorem lagged_rate_from_full_series :
  (forall df sel s e k lr,
     In lr (region_data df sel s e k) ->
     exists i p,
       nth_error (region_group sel (sort_values (load_data df))) (i + k) = Some (l_obs lr)
       /\ nth_error (region_group sel (sort_values (load_data df))) i = Some p
       /\ 기준금리_시차 lr = 기준금리 p)
  /\ (exists df sel s e k rd w c lr r0,
        predictor df sel s e k = Report rd w c
        /\ In lr rd /\ In r0 df
        /\ 지역 r0 = sel /\ (날짜 r0 < s)%Z
        /\ 기준금리_시차 lr = 기준금리 r0).
Proof.
  split; [apply in_region_data_nth|].
  exists table_a, "A"%string, 2%Z, 4%Z, 1%nat, (region_data table_a "A" 2 4 1),
    [(1, 20); (2, 30); (3, 40)]%Q.
  eexists; exists (mkLrow (mkRow "A" 2 (CNum 2) (CNum 20)) (CNum 1)),
    (mkRow "A" 1 (CNum 1) (CNum 10)).
  split; [apply predictor_report; [reflexivity | vm_compute; lia | vm_compute; reflexivity]|].
  split; [vm_compute; left; reflexivity|].
  split; [simpl; left; reflexivity|].
  repeat split; reflexivity.
Qed.

(** ** C10 *)

(** C10: for a fixed region and date range, the number of usable rows never
    grows when the lag grows by one month (so it is non-increasing in the
    lag); on table [table_a] with the window months 1-3 the selection gives
    a report at lag 0 and the warning at lag 1. *)
Theorem usable_count_antitone_in_lag :
  (forall df sel s e k,
     (List.length (region_data df sel s e (S k))
      <= List.length (region_data df sel s e k))%nat)
  /\ (exists df sel s e rd w c,
        predictor df sel s e 0 = Report rd w c
        /\ predictor df sel s e 1 = Advisory).
Proof.
  split.
  - intros df sel s e k; rewrite !length_region_data; apply length_filter_skipn_S.
  - exists table_a, "A"%string, 1%Z, 3%Z, (region_data table_a "A" 1 3 0),
      [(1, 10); (2, 20); (3, 30)]%Q; eexists; split.
    + apply predictor_report; [reflexivity | vm_compute; lia | vm_compute; reflexivity].
    + apply predictor_advisory; vm_compute; lia.
Qed.

(** ** Sums over the working series *)

Open Scope Q_scope.

Lemma Qsq_nonneg (x : Q) : 0 <= x * x.
Proof.
  destruct (Qlt_le_dec x 0).
  - setoid_replace (x * x) with ((- x) * (- x)) by ring.
    apply Qmult_le_0_compat; lra.
  - apply Qmult_le_0_compat; lra.
Qed.

Lemma qsum_cons x l : qsum (x :: l) = x + qsum l.
Proof. reflexivity. Qed.

Lemma qlen_cons {A} (x : A) l : qlen (x :: l) == qlen l + 1.
Proof.
  unfold qlen; simpl List.length.
  rewrite Nat2Z.inj_succ, <- Z.add_1_r, inject_Z_plus; reflexivity.
Qed.

Lemma qlen_nonneg {A} (l : list A) : 0 <= qlen l.
Proof.
  unfold qlen, Qle; simpl; lia.
Qed.

Lemma qlen_pos {A} (l : list A) : l <> [] -> 0 < qlen l.
Proof.
  destruct l as [|x t]; [congruence|]; intros _.
  unfold qlen, Qlt; simpl; lia.
Qed.

Lemma qlen_map {A B} (f : A -> Q) (l : list A) (l' : list B) : List.length l = List.length l' ->
  qlen (map f l) == qlen l'.
Proof. intros H; unfold qlen; now rewrite length_map, H. Qed.

Lemma qsum_ext {A} (f g : A -> Q) (l : list A) :
  (forall x, In x l -> f x == g x) -> qsum (map f l) == qsum (map g l).
Proof.
  induction l as [|a l IH]; intros H; simpl map; rewrite ?qsum_cons; [reflexivity|].
  rewrite (H a (or_introl eq_refl)), IH; [reflexivity|].
  intros x Hx; apply H; now right.
Qed.

Lemma qsum_const {A} (f : A -> Q) (v : Q) (l : list A) :
  (forall x, In x l -> f x == v) -> qsum (map f l) == qlen l * v.
Proof.
  induction l as [|a l IH]; intros H; simpl map; rewrite ?qsum_cons.
  - reflexivity.
  - rewrite (H a (or_introl eq_refl)), IH, qlen_cons; [ring|].
    intros x Hx; apply H; now right.
Qed.

Lemma qsum_squares_nonneg {A} (f : A -> Q) (l : list A) :
  0 <= qsum (map (fun x => f x * f x) l).
Proof.
  induction l as [|a l IH]; simpl map; [apply Qle_refl|].
  rewrite qsum_cons; pose proof (Qsq_nonneg (f a)); lra.
Qed.

Lemma qsum_squares_zero {A} (f : A -> Q) (l : list A) :
  qsum (map (fun x => f x * f x) l) <= 0 -> forall x, In x l -> f x == 0.
Proof.
  induction l as [|a l IH]; intros H x Hx; [destruct Hx|].
  simpl map in H; rewrite qsum_cons in H; pose proof (qsum_squares_nonneg f l).
  pose proof (Qsq_nonneg (f a)).
  destruct Hx as [<-|Hx].
  - assert (Ha : f a * f a == 0) by lra.
    now destruct (Qmult_integral _ _ Ha).
  - apply IH; auto; lra.
Qed.

(** The identity behind the Cauchy-Schwarz inequality. *)
Lemma qsum_square_expand {A} (u v : A -> Q) (t : Q) (l : list A) :
  qsum (map (fun x => (t * u x - v x) * (t * u x - v x)) l)
  == t * t * qsum (map (fun x => u x * u x) l)
     - 2 * t * qsum (map (fun x => u x * v x) l)
     + qsum (map (fun x => v x * v x) l).
Proof.
  induction l as [|a l IH]; simpl map; rewrite ?qsum_cons.
  - unfold qsum; simpl fold_right; ring.
  - rewrite IH; ring.
Qed.

Lemma cauchy_schwarz {A} (u v : A -> Q) (l : list A) :
  let suu := qsum (map (fun x => u x * u x) l) in
  let suv := qsum (map (fun x => u x * v x) l) in
  let svv := qsum (map (fun x => v x * v x) l) in
  suv * suv <= suu * svv.
Proof.
  intros suu suv svv.
  assert (Huu : 0 <= suu) by apply qsum_squares_nonneg.
  assert (Hvv : 0 <= svv) by apply qsum_squares_nonneg.
  destruct (Qeq_dec suu 0) as [H0|H0].
  - (* all [u x] vanish, hence so does [suv] *)
    assert (Hu : forall x, In x l -> u x == 0)
      by (apply qsum_squares_zero; unfold suu in H0; lra).
    assert (Hs : suv == 0).
    { unfold suv; rewrite (qsum_ext _ (fun _ => 0)), (qsum_const (fun _ => 0) 0); [ring|reflexivity|].
      intros x Hx; rewrite (Hu x Hx); ring. }
    rewrite Hs, H0; lra.
  - assert (Hpos : 0 < suu) by (apply Qle_lt_or_eq in Huu as [|E]; auto; exfalso; apply H0; now rewrite E).
    pose proof (qsum_squares_nonneg (fun x => suv / suu * u x - v x) l) as Hn.
    simpl in Hn; rewrite qsum_square_expand in Hn; fold suu suv svv in Hn.
    assert (Ht : suv / suu * suu == suv) by (field; auto).
    assert (E : suv / suu * (suv / suu) * suu - 2 * (suv / suu) * suv + svv
                == (suu * svv - suv * suv) / suu) by (field; auto).
    rewrite E in Hn.
    assert (Hm : 0 <= (suu * svv - suv * suv) / suu * suu)
      by (apply Qmult_le_0_compat; lra).
    setoid_replace ((suu * svv - suv * suv) / suu * suu) with (suu * svv - suv * suv)
      in Hm by (field; auto).
    lra.
Qed.

Close Scope Q_scope.

(** ** The least-squares fit *)

Open Scope Q_scope.

Section FitProofs.
Variable w : list (Q * Q).
Hypothesis w_nonempty : w <> [].

Lemma qlen_w_pos : 0 < qlen w.
  Proof. now apply qlen_pos. Qed.

Lemma qlen_w_nz : ~ qlen w == 0.
  Proof. pose proof qlen_w_pos; lra. Qed.

Lemma mean_map (f : Q * Q -> Q) : mean (map f w) == qsum (map f w) / qlen w.
  Proof. unfold mean, qlen; now rewrite length_map. Qed.

Lemma m0_one : m0 w == 1.
  Proof.
    unfold m0, xs; rewrite map_map, mean_map.
    rewrite (qsum_const _ 1) by reflexivity.
    field; apply qlen_w_nz.
  Qed.

Lemma m1_eq : m1 w == qsum (map fst w) / qlen w.
  Proof. unfold m1, xs; rewrite map_map; apply mean_map. Qed.

Lemma m2_eq : m2 w == qsum (map (fun p => fst p * fst p) w) / qlen w.
  Proof. unfold m2, xs; rewrite map_map; apply mean_map. Qed.

Lemma my_eq : my w == qsum (map snd w) / qlen w.
  Proof. unfold my, ys; apply mean_map. Qed.

Lemma resid_unfold cf p :
    resid w cf p == (snd p - my w)
                    - (w1 cf * (fst p - m1 w) + w2 cf * (fst p * fst p - m2 w)).
  Proof. unfold resid, feat0, feat1, feat2; rewrite m0_one; ring. Qed.

Lemma ssr_nonneg cf : 0 <= ssr w cf.
  Proof. apply qsum_squares_nonneg. Qed.

Lemma ssr_le_zero cf : ssr w cf <= 0 -> forall p, In p w -> resid w cf p == 0.
  Proof. apply qsum_squares_zero. Qed.

Lemma coef_norm_nonneg cf : 0 <= coef_norm cf.
  Proof.
    unfold coef_norm.
    pose proof (Qsq_nonneg (w0 cf)); pose proof (Qsq_nonneg (w1 cf));
      pose proof (Qsq_nonneg (w2 cf)); lra.
  Qed.

Lemma zero_ssr_minimal cf : ssr w cf <= 0 -> forall c', ssr w cf <= ssr w c'.
  Proof. intros H c'; pose proof (ssr_nonneg c'); lra. Qed.

  (** When every rate equals the mean rate, or every price the mean price,
      the zero coefficient vector is the minimal-norm least-squares
      solution. *)
Lemma fit_flat :
    (forall p, In p w -> fst p == m1 w) \/ (forall p, In p w -> snd p == my w) ->
    fit_spec w (mkCoef 0 0 0).
  Proof.
    intros Hflat; split.
    - destruct Hflat as [Hx|Hy].
      + assert (Hm2 : m2 w == m1 w * m1 w).
        { rewrite m2_eq, (qsum_const _ (m1 w * m1 w)); [field; apply qlen_w_nz|].
          intros p Hp; now rewrite (Hx p Hp). }
        assert (Hr : forall cf p, In p w -> resid w cf p == snd p - my w).
        { intros cf p Hp; rewrite resid_unfold, (Hx p Hp), Hm2; ring. }
        intros c'; unfold ssr.
        rewrite (qsum_ext _ (fun p => (snd p - my w) * (snd p - my w)));
          [| intros p Hp; now rewrite Hr].
        rewrite (qsum_ext (fun p => resid w c' p * resid w c' p)
                   (fun p => (snd p - my w) * (snd p - my w)));
          [apply Qle_refl | intros p Hp; now rewrite Hr].
      + apply zero_ssr_minimal; unfold ssr.
        rewrite (qsum_ext _ (fun _ => 0)), (qsum_const (fun _ => 0) 0);
          [ring_simplify; apply Qle_refl | reflexivity |].
        intros p Hp; rewrite resid_unfold, (Hy p Hp); simpl; ring.
    - intros c' _; unfold coef_norm at 1; simpl.
      pose proof (coef_norm_nonneg c'); lra.
  Qed.
End FitProofs.

Close Scope Q_scope.

Open Scope Q_scope.

(** A quadratic with three distinct roots is zero. *)
Lemma quad_three_roots (A B C x1 x2 x3 : Q) :
  ~ x1 == x2 -> ~ x1 == x3 -> ~ x2 == x3 ->
  A * (x1 * x1) + B * x1 + C == 0 ->
  A * (x2 * x2) + B * x2 + C == 0 ->
  A * (x3 * x3) + B * x3 + C == 0 ->
  A == 0 /\ B == 0.
Proof.
  intros N12 N13 N23 E1 E2 E3.
  assert (F12 : (x1 - x2) * (A * (x1 + x2) + B) == 0) by lra.
  assert (F13 : (x1 - x3) * (A * (x1 + x3) + B) == 0) by lra.
  destruct (Qmult_integral _ _ F12) as [H|G12]; [exfalso; apply N12; lra|].
  destruct (Qmult_integral _ _ F13) as [H|G13]; [exfalso; apply N13; lra|].
  assert (F23 : A * (x2 - x3) == 0) by lra.
  destruct (Qmult_integral _ _ F23) as [HA|H]; [|exfalso; apply N23; lra].
  split; [exact HA|].
  rewrite HA in G12; lra.
Qed.

Section GeneratedFit.
  (** A working series whose prices are generated exactly by
      [price = ga + gb * rate + gc * rate^2] and which has three distinct
      rates. *)
Variable w : list (Q * Q).
Variables ga gb gc x1 x2 x3 : Q.
Hypothesis in1 : In x1 (map fst w).
Hypothesis in2 : In x2 (map fst w).
Hypothesis in3 : In x3 (map fst w).
Hypothesis d12 : ~ x1 == x2.
Hypothesis d13 : ~ x1 == x3.
Hypothesis d23 : ~ x2 == x3.
Hypothesis gen : forall p, In p w -> snd p == ga + gb * fst p + gc * (fst p * fst p).

Lemma gen_nonempty : w <> [].
  Proof. intros E; rewrite E in in1; destruct in1. Qed.

Lemma qsum_generated :
    qsum (map snd w)
    == qlen w * ga + gb * qsum (map fst w) + gc * qsum (map (fun p => fst p * fst p) w).
  Proof.
    clear in1 in2 in3 d12 d13 d23.
    induction w as [|p t IH]; simpl map; rewrite ?qsum_cons.
    - unfold qsum, qlen; simpl; ring.
    - rewrite qlen_cons, (gen p (or_introl eq_refl)), IH; [ring|].
      intros q Hq; apply gen; now right.
  Qed.

Lemma my_generated : my w == ga + gb * m1 w + gc * m2 w.
  Proof.
    pose proof gen_nonempty as Hne.
    rewrite my_eq, m1_eq, m2_eq, qsum_generated by exact Hne.
    field; now apply qlen_w_nz.
  Qed.

Lemma resid_generated cf p : In p w ->
    resid w cf p == (gb - w1 cf) * (fst p - m1 w) + (gc - w2 cf) * (fst p * fst p - m2 w).
  Proof.
    intros Hp; rewrite resid_unfold by exact gen_nonempty.
    rewrite (gen p Hp), my_generated; ring.
  Qed.

Lemma ssr_generated_zero : ssr w (mkCoef 0 gb gc) <= 0.
  Proof.
    unfold ssr.
    rewrite (qsum_ext _ (fun _ => 0)), (qsum_const (fun _ => 0) 0);
      [ring_simplify; apply Qle_refl | reflexivity |].
    intros p Hp; rewrite (resid_generated _ p Hp); simpl; ring.
  Qed.

Lemma root_at x : In x (map fst w) -> forall cf, ssr w cf <= 0 ->
    (gc - w2 cf) * (x * x) + (gb - w1 cf) * x
    + (- ((gb - w1 cf) * m1 w + (gc - w2 cf) * m2 w)) == 0.
  Proof.
    intros Hx cf H; apply in_map_iff in Hx as [p [<- Hp]].
    pose proof (ssr_le_zero w cf H p Hp) as Hr.
    rewrite (resid_generated cf p Hp) in Hr.
    rewrite <- Hr; ring.
  Qed.

  (** Every least-squares solution has the generator's rate coefficients. *)
Lemma generated_minimizer cf : ssr w cf <= 0 -> w1 cf == gb /\ w2 cf == gc.
  Proof.
    intros H.
    destruct (quad_three_roots _ _ _ x1 x2 x3 d12 d13 d23
                (root_at x1 in1 cf H) (root_at x2 in2 cf H) (root_at x3 in3 cf H))
      as [HA HB].
    split; lra.
  Qed.

Lemma fit_generated : fit_spec w (mkCoef 0 gb gc).
  Proof.
    split.
    - apply zero_ssr_minimal, ssr_generated_zero.
    - intros c' Hc'.
      assert (H0 : ssr w c' <= 0) by (pose proof ssr_generated_zero; lra).
      destruct (generated_minimizer c' H0) as [E1 E2].
      unfold coef_norm; simpl; rewrite E1, E2.
      pose proof (Qsq_nonneg (w0 c')); lra.
  Qed.

Lemma fit_generated_coef cf :
    fit_spec w cf -> w0 cf == 0 /\ w1 cf == gb /\ w2 cf == gc.
  Proof.
    intros [Hmin Hnorm].
    assert (H0 : ssr w cf <= 0)
      by (pose proof (Hmin (mkCoef 0 gb gc)); pose proof ssr_generated_zero; lra).
    destruct (generated_minimizer cf H0) as [E1 E2].
    assert (Hle : ssr w (mkCoef 0 gb gc) <= ssr w cf)
      by (pose proof ssr_generated_zero; pose proof (ssr_nonneg w cf); lra).
    specialize (Hnorm _ Hle); unfold coef_norm in Hnorm; simpl in Hnorm.
    rewrite E1, E2 in Hnorm.
    assert (Hsq : w0 cf * w0 cf == 0) by (pose proof (Qsq_nonneg (w0 cf)); lra).
    repeat split; auto.
    now destruct (Qmult_integral _ _ Hsq).
  Qed.

Lemma intercept_generated cf : fit_spec w cf -> intercept w cf == ga.
  Proof.
    intros Hf; destruct (fit_generated_coef cf Hf) as [E0 [E1 E2]].
    unfold intercept; rewrite E0, E1, E2, my_generated; ring.
  Qed.

Lemma predict_generated cf q :
    fit_spec w cf -> predict w cf q == ga + gb * q + gc * (q * q).
  Proof.
    intros Hf; destruct (fit_generated_coef cf Hf) as [E0 [E1 E2]].
    unfold predict; rewrite (intercept_generated cf Hf), E0, E1, E2.
    unfold feat0, feat1, feat2; ring.
  Qed.
End GeneratedFit.

Close Scope Q_scope.

(** ** C2 *)

Open Scope Q_scope.

(** C2 (as amended): [PolynomialFeatures(degree=2)] expands the rate into
    [1, rate, rate^2] and the same expansion is applied to the query rate.
    For a series generated exactly by [price = ga + gb*rate + gc*rate^2]
    that has at least three distinct rates, the fit exists and is unique:
    the coefficients are [0, gb, gc], the intercept is [ga], and the
    prediction at every query rate is the generator's value there. *)
Theorem quadratic_fit_recovers_generator (w : list (Q * Q)) (ga gb gc x1 x2 x3 : Q) :
  In x1 (map fst w) -> In x2 (map fst w) -> In x3 (map fst w) ->
  ~ x1 == x2 -> ~ x1 == x3 -> ~ x2 == x3 ->
  (forall p, In p w -> snd p == ga + gb * fst p + gc * (fst p * fst p)) ->
  fit_spec w (mkCoef 0 gb gc)
  /\ forall cf, fit_spec w cf ->
     w0 cf == 0 /\ w1 cf == gb /\ w2 cf == gc /\ intercept w cf == ga
     /\ forall q, predict w cf q == ga + gb * q + gc * (q * q).
Proof.
  intros i1 i2 i3 n12 n13 n23 Hgen.
  split; [exact (fit_generated w ga gb gc x1 x2 x3 i1 i2 i3 n12 n13 n23 Hgen)|].
  intros cf Hf.
  destruct (fit_generated_coef w ga gb gc x1 x2 x3 i1 i2 i3 n12 n13 n23 Hgen cf Hf)
    as [E0 [E1 E2]].
  repeat split; auto.
  - exact (intercept_generated w ga gb gc x1 x2 x3 i1 i2 i3 n12 n13 n23 Hgen cf Hf).
  - intros q; exact (predict_generated w ga gb gc x1 x2 x3 i1 i2 i3 n12 n13 n23 Hgen cf q Hf).
Qed.

(** The spec's generator [100 + 5 r + 2 r^2] sampled at rates 0, 1 and 2. *)
Lemma quadratic_fit_recovers_generator_witness :
  fit_spec [(0, 100); (1, 107); (2, 118)] (mkCoef 0 5 2)
  /\ forall cf, fit_spec [(0, 100); (1, 107); (2, 118)] cf ->
     w0 cf == 0 /\ w1 cf == 5 /\ w2 cf == 2
     /\ intercept [(0, 100); (1, 107); (2, 118)] cf == 100
     /\ forall q, predict [(0, 100); (1, 107); (2, 118)] cf q == 100 + 5 * q + 2 * (q * q).
Proof.
  apply (quadratic_fit_recovers_generator _ 100 5 2 0 1 2);
    [simpl; auto | simpl; auto | simpl; auto
    | vm_compute; discriminate | vm_compute; discriminate | vm_compute; discriminate |].
  intros p Hp; simpl in Hp.
  destruct Hp as [<-|[<-|[<-|[]]]]; vm_compute; reflexivity.
Defined.

(** C2 as stated fails when the series has fewer than three distinct rates:
    three months at the same rate 1, priced by the generator
    [100 + 5 r + 2 r^2] (107 each). The centred features are all zero, so
    [lstsq] returns the zero coefficients, the model predicts the mean price
    107 everywhere, and at the query rate 2 the generator gives 118. *)
Lemma quadratic_fit_constant_rates_counterexample :
  ~ (forall (w : list (Q * Q)) (ga gb gc : Q) (cf : coef) (q : Q),
       (3 <= List.length w)%nat ->
       (forall p, In p w -> snd p == ga + gb * fst p + gc * (fst p * fst p)) ->
       fit_spec w cf ->
       predict w cf q == ga + gb * q + gc * (q * q)).
Proof.
  intros H.
  assert (Hf : fit_spec [(1, 107); (1, 107); (1, 107)] (mkCoef 0 0 0)).
  { apply fit_flat; [discriminate|]; left.
    intros p Hp; simpl in Hp.
    destruct Hp as [<-|[<-|[<-|[]]]]; vm_compute; reflexivity. }
  specialize (H [(1, 107); (1, 107); (1, 107)] 100 5 2 (mkCoef 0 0 0) 2 ltac:(simpl; lia)).
  assert (Hg : forall p, In p [(1, 107); (1, 107); (1, 107)] ->
               snd p == 100 + 5 * fst p + 2 * (fst p * fst p)).
  { intros p Hp; simpl in Hp.
    destruct Hp as [<-|[<-|[<-|[]]]]; vm_compute; reflexivity. }
  specialize (H Hg Hf); vm_compute in H; discriminate.
Qed.

Close Scope Q_scope.

(** ** The correlation *)

Lemma combine_map {A B C} (f : A -> B) (g : A -> C) (l : list A) :
  combine (map f l) (map g l) = map (fun x => (f x, g x)) l.
Proof. induction l as [|a l IH]; simpl; [reflexivity | now rewrite IH]. Qed.

Lemma sxy_map (f g : Q * Q -> Q) (w : list (Q * Q)) :
  sxy (map f w) (map g w)
  = qsum (map (fun p => (f p - mean (map f w)) * (g p - mean (map g w)))%Q w).
Proof. unfold sxy; now rewrite combine_map, map_map. Qed.

Lemma sxy_comm (f g : Q * Q -> Q) (w : list (Q * Q)) :
  (sxy (map f w) (map g w) == sxy (map g w) (map f w))%Q.
Proof. rewrite !sxy_map; apply qsum_ext; intros; ring. Qed.






Lemma fdiv_nonzero a b : b <> 0%R -> fdiv a b = Num (a / b).
Proof. intros H; unfold fdiv; destruct (Req_EM_T b 0); [contradiction | reflexivity]. Qed.




(** ** What a report contains *)

Lemma to_numeric_length rd w : to_numeric rd = Some w -> List.length w = List.length rd.
Proof.
  revert w; induction rd as [|lr t IH]; intros w H; simpl in H.
  - now injection H as <-.
  - destruct (to_pair lr), (to_numeric t) eqn:Et; try discriminate.
    injection H as <-; simpl; now rewrite (IH l).
Qed.

Lemma predictor_report_inv df sel s e k rd w c :
  predictor df sel s e k = Report rd w c ->
  region_data df sel s e k = rd /\ (3 <= List.length rd)%nat
  /\ to_numeric rd = Some w /\ c = corrcoef (map fst w) (map snd w).
Proof.
  unfold predictor.
  destruct (negb (is_empty (region_data df sel s e k))
            && (3 <=? List.length (region_data df sel s e k))%nat) eqn:G;
    [|discriminate].
  destruct (to_numeric (region_data df sel s e k)) eqn:N; [|discriminate].
  intros H; injection H as <- <- <-.
  apply andb_prop in G as [_ G]; apply Nat.leb_le in G.
  repeat split; auto.
Qed.

Lemma report_nonempty df sel s e k rd w c :
  predictor df sel s e k = Report rd w c -> w <> [].
Proof.
  intros H; apply predictor_report_inv in H as [_ [Hlen [Hw _]]].
  apply to_numeric_length in Hw; intros ->; simpl in Hw; lia.
Qed.

Lemma script_report_inv df sel s e k rd w c :
  script df sel s e k = Report rd w c ->
  predictor df sel s e k = Report rd w c /\ rate_text df = false.
Proof.
  unfold script; destruct (predictor df sel s e k); try discriminate.
  destruct (rate_text df); [discriminate|]; intros H; split; congruence.
Qed.

Lemma script_of_report df sel s e k rd w c :
  predictor df sel s e k = Report rd w c ->
  script df sel s e k = if rate_text df then Crash else Report rd w c.
Proof. intros H; unfold script; now rewrite H. Qed.


(** ** C5 *)


Section CorrBounds.
Variable w : list (Q * Q).
Hypothesis w_two : (2 <= List.length w)%nat.
Hypothesis sxx_nz : ~ (sxy (map fst w) (map fst w) == 0)%Q.
Hypothesis syy_nz : ~ (sxy (map snd w) (map snd w) == 0)%Q.

Let a := map fst w.
Let b := map snd w.

Lemma ddof_pos (f : Q * Q -> Q) : (0 < qlen (map f w) - 1)%Q.
  Proof. unfold qlen; rewrite length_map; unfold Qlt, Qminus; simpl; lia. Qed.

Lemma sxy_self_pos (f : Q * Q -> Q) :
    ~ (sxy (map f w) (map f w) == 0)%Q -> (0 < sxy (map f w) (map f w))%Q.
  Proof.
    intros H; rewrite sxy_map in *.
    pose proof (qsum_squares_nonneg (fun p => f p - mean (map f w))%Q w) as N.
    cbv beta in N.
    apply Qle_lt_or_eq in N as [N|N]; [exact N | exfalso; apply H; now rewrite <- N].
  Qed.

Lemma cov_self_pos (f : Q * Q -> Q) :
    ~ (sxy (map f w) (map f w) == 0)%Q -> (0 < cov (map f w) (map f w))%R.
  Proof.
    intros H; unfold cov.
    replace 0%R with (Q2R 0) by (unfold Q2R; simpl; Lra.lra).
    apply Qlt_Rlt; unfold Qdiv.
    apply Qmult_lt_0_compat; [now apply sxy_self_pos | apply Qinv_lt_0_compat, ddof_pos].
  Qed.

Lemma cov_sym : cov b a = cov a b.
  Proof.
    unfold cov; apply Qeq_eqR; subst a b.
    rewrite sxy_comm; unfold qlen; now rewrite !length_map.
  Qed.

  (** Cauchy-Schwarz on the centred columns, scaled by the [ddof=1] factor. *)
Lemma cov_square_le : (cov a b * cov a b <= cov a a * cov b b)%R.
  Proof.
    assert (Hd : (qlen a - 1 == qlen b - 1)%Q)
      by (subst a b; unfold qlen; now rewrite !length_map).
    unfold cov; rewrite <- !Q2R_mult; apply Qle_Rle.
    rewrite <- Hd.
    pose proof (ddof_pos fst) as Dp; fold a in Dp.
    set (d := (qlen a - 1)%Q) in *.
    pose proof (cauchy_schwarz (fun p => fst p - mean a)%Q (fun p => snd p - mean b)%Q w)
      as CS; cbv beta zeta in CS.
    subst a b; rewrite !sxy_map.
    setoid_replace
      (qsum (map (fun p => (fst p - mean (map fst w)) * (snd p - mean (map snd w))) w) / d
       * (qsum (map (fun p => (fst p - mean (map fst w)) * (snd p - mean (map snd w))) w) / d))%Q
      with (qsum (map (fun p => (fst p - mean (map fst w)) * (snd p - mean (map snd w))) w)
            * qsum (map (fun p => (fst p - mean (map fst w)) * (snd p - mean (map snd w))) w)
            * (/ d * / d))%Q by (unfold Qdiv; ring).
    setoid_replace
      (qsum (map (fun p => (fst p - mean (map fst w)) * (fst p - mean (map fst w))) w) / d
       * (qsum (map (fun p => (snd p - mean (map snd w)) * (snd p - mean (map snd w))) w) / d))%Q
      with (qsum (map (fun p => (fst p - mean (map fst w)) * (fst p - mean (map fst w))) w)
            * qsum (map (fun p => (snd p - mean (map snd w)) * (snd p - mean (map snd w))) w)
            * (/ d * / d))%Q by (unfold Qdiv; ring).
    apply Qmult_le_compat_r; [exact CS|].
    apply Qsq_nonneg.
  Qed.

Lemma corrcoef_value :
    exists r, corrcoef a b = Num r /\ corrcoef b a = Num r /\ (-1 <= r <= 1)%R.
  Proof.
    pose proof (cov_self_pos fst sxx_nz) as Va; fold a in Va.
    pose proof (cov_self_pos snd syy_nz) as Vb; fold b in Vb.
    pose proof (sqrt_lt_R0 _ Va) as Sa; pose proof (sqrt_lt_R0 _ Vb) as Sb.
    pose proof (sqrt_sqrt _ (Rlt_le _ _ Va)) as Ea.
    pose proof (sqrt_sqrt _ (Rlt_le _ _ Vb)) as Eb.
    pose proof cov_square_le as CS.
    set (sa := sqrt (cov a a)) in *; set (sb := sqrt (cov b b)) in *.
    set (r := (cov a b / sa / sb)%R).
    assert (Hr : (r * (sa * sb) = cov a b)%R) by (unfold r; field; Lra.lra).
    assert (Hb : (-1 <= r <= 1)%R).
    { assert (Hs : (0 < sa * sb)%R) by (apply Rmult_lt_0_compat; Lra.lra).
      assert (Hsq : (cov a b * cov a b <= (sa * sb) * (sa * sb))%R).
      { replace ((sa * sb) * (sa * sb))%R with ((sa * sa) * (sb * sb))%R by ring.
        rewrite Ea, Eb; exact CS. }
      rewrite <- Hr in Hsq.
      assert (Hr2 : (r * r <= 1)%R).
      { apply (Rmult_le_reg_r ((sa * sb) * (sa * sb))); [Lra.nra|]. Lra.nra. }
      split; Lra.nra. }
    exists r; split; [|split; [|exact Hb]].
    - unfold corrcoef; fold sa sb.
      rewrite fdiv_nonzero by Lra.lra; cbn [fdiv_v]; rewrite fdiv_nonzero by Lra.lra.
      change (cov a b / sa / sb)%R with r.
      unfold clip; rewrite Rmin_left, Rmax_right; [reflexivity | Lra.lra | Lra.lra].
    - unfold corrcoef; rewrite cov_sym; fold sa sb.
      rewrite fdiv_nonzero by Lra.lra; cbn [fdiv_v]; rewrite fdiv_nonzero by Lra.lra.
      replace (cov a b / sb / sa)%R with r by (unfold r; field; Lra.lra).
      unfold clip; rewrite Rmin_left, Rmax_right; [reflexivity | Lra.lra | Lra.lra].
  Qed.
End CorrBounds.



(** ** C6 *)

(** C6: when both the lagged-rate column and the price column of the working
    series have non-zero spread, the correlation shown is a number in
    [-1, 1], computed from the very pairs the model is fitted on, and
    swapping the two columns gives the same value. *)
Theorem corr_bounded_symmetric df sel s e k rd w c :
  predictor df sel s e k = Report rd w c ->
  ~ (sxy (map fst w) (map fst w) == 0)%Q ->
  ~ (sxy (map snd w) (map snd w) == 0)%Q ->
  region_data df sel s e k = rd /\ to_numeric rd = Some w
  /\ c = corrcoef (map fst w) (map snd w)
  /\ corrcoef (map snd w) (map fst w) = c
  /\ exists r, c = Num r /\ (-1 <= r <= 1)%R.
Proof.
  intros Hrun Hx Hy.
  destruct (predictor_report_inv _ _ _ _ _ _ _ _ Hrun) as [Hrd [Hlen [Hw Hc]]].
  assert (H2 : (2 <= List.length w)%nat) by (rewrite (to_numeric_length _ _ Hw); lia).
  destruct (corrcoef_value w H2 Hx Hy) as [r [E1 [E2 Hb]]].
  repeat split; auto.
  - now rewrite E2, Hc, E1.
  - exists r; split; [now rewrite Hc|exact Hb].
Qed.

Lemma corr_bounded_symmetric_witness :
  exists r, corrcoef (map fst [(1, 10); (2, 20); (3, 30)]%Q)
                     (map snd [(1, 10); (2, 20); (3, 30)]%Q) = Num r
            /\ (-1 <= r <= 1)%R.
Proof.
  assert (H : predictor table_a "A" 1 3 0
              = Report (region_data table_a "A" 1 3 0) [(1, 10); (2, 20); (3, 30)]%Q
                  (corrcoef (map fst [(1, 10); (2, 20); (3, 30)]%Q)
                            (map snd [(1, 10); (2, 20); (3, 30)]%Q)))
    by (apply predictor_report; [reflexivity | vm_compute; lia | vm_compute; reflexivity]).
  refine (match corr_bounded_symmetric _ _ _ _ _ _ _ _ H _ _ with
          | conj _ (conj _ (conj _ (conj _ X))) => X
          end);
    vm_compute; discriminate.
Defined.

(** ** C7 *)









(** ** C8 *)

Open Scope Q_scope.

Lemma qsum_mid {A} (f g h : A -> Q) (l : list A) :
  (forall x, In x l -> 2 * h x == f x + g x) ->
  2 * qsum (map (fun x => h x * h x) l)
  <= qsum (map (fun x => f x * f x) l) + qsum (map (fun x => g x * g x) l).
Proof.
  induction l as [|a l IH]; intros H; simpl map; rewrite ?qsum_cons.
  - unfold qsum; simpl; lra.
  - assert (IH' : 2 * qsum (map (fun x => h x * h x) l)
                  <= qsum (map (fun x => f x * f x) l) + qsum (map (fun x => g x * g x) l))
      by (apply IH; intros x Hx; apply H; now right).
    pose proof (H a (or_introl eq_refl)) as Ha.
    assert (Hh : 4 * (h a * h a) == (f a + g a) * (f a + g a))
      by (rewrite <- Ha; ring).
    pose proof (Qsq_nonneg (f a - g a)); lra.
Qed.

(** [lstsq]'s answer is unique: the least-squares solutions form a convex
    set and the squared norm is strictly convex. *)
Lemma fit_unique w c1 c2 :
  fit_spec w c1 -> fit_spec w c2 ->
  w0 c1 == w0 c2 /\ w1 c1 == w1 c2 /\ w2 c1 == w2 c2.
Proof.
  intros [M1 N1] [M2 N2].
  pose proof (M1 c2) as L12; pose proof (M2 c1) as L21.
  assert (Hmid : 2 * ssr w (mid_coef c1 c2) <= ssr w c1 + ssr w c2).
  { apply qsum_mid; intros p _; unfold resid, mid_coef; simpl; field. }
  assert (Hm : ssr w (mid_coef c1 c2) <= ssr w c1) by lra.
  pose proof (N1 _ Hm) as Nm.
  pose proof (N1 _ L21) as Na; pose proof (N2 _ L12) as Nb.
  unfold coef_norm, mid_coef in *; simpl in *.
  setoid_replace
    ((w0 c1 + w0 c2) / 2 * ((w0 c1 + w0 c2) / 2) + (w1 c1 + w1 c2) / 2 * ((w1 c1 + w1 c2) / 2)
     + (w2 c1 + w2 c2) / 2 * ((w2 c1 + w2 c2) / 2))
    with (((w0 c1 + w0 c2) * (w0 c1 + w0 c2) + (w1 c1 + w1 c2) * (w1 c1 + w1 c2)
           + (w2 c1 + w2 c2) * (w2 c1 + w2 c2)) * (1 # 4)) in Nm by field.
  pose proof (Qsq_nonneg (w0 c1 - w0 c2)); pose proof (Qsq_nonneg (w1 c1 - w1 c2));
    pose proof (Qsq_nonneg (w2 c1 - w2 c2)).
  assert (Z0 : (w0 c1 - w0 c2) * (w0 c1 - w0 c2) == 0) by lra.
  assert (Z1 : (w1 c1 - w1 c2) * (w1 c1 - w1 c2) == 0) by lra.
  assert (Z2 : (w2 c1 - w2 c2) * (w2 c1 - w2 c2) == 0) by lra.
  destruct (Qmult_integral _ _ Z0), (Qmult_integral _ _ Z1), (Qmult_integral _ _ Z2);
    repeat split; lra.
Qed.

Lemma predict_fit_unique w c1 c2 q :
  fit_spec w c1 -> fit_spec w c2 -> predict w c1 q == predict w c2 q.
Proof.
  intros H1 H2; destruct (fit_unique w c1 c2 H1 H2) as [E0 [E1 E2]].
  unfold predict, intercept; rewrite E0, E1, E2; reflexivity.
Qed.

(** C8: the script is a function of its inputs (the table, the region, the
    date range and the lag); the correlation it reports is determined by
    them, and so is the prediction at any query rate: two predictions for
    the same inputs are equal. *)
Theorem prediction_deterministic df sel s e k q p1 p2 :
  prediction (predictor df sel s e k) q p1 ->
  prediction (predictor df sel s e k) q p2 ->
  p1 == p2.
Proof.
  unfold prediction; destruct (predictor df sel s e k) as [| |rd w c]; try contradiction.
  intros [c1 [F1 E1]] [c2 [F2 E2]]; rewrite E1, E2; now apply predict_fit_unique.
Qed.

Close Scope Q_scope.

(** On [table_a] (months 1 to 4, price = 10 * rate) at the query rate 5. *)
Lemma prediction_deterministic_witness :
  prediction (predictor table_a "A" 1 4 0) 5 50
  /\ (50 == 50)%Q.
Proof.
  assert (H : prediction (predictor table_a "A" 1 4 0) 5 50).
  { rewrite (predictor_report table_a "A" 1 4 0 _ [(1, 10); (2, 20); (3, 30); (4, 40)]%Q)
      by (reflexivity || (vm_compute; lia) || (vm_compute; reflexivity)).
    exists (mkCoef 0 10 0); split.
    - apply (fit_generated _ 0 10 0 1 2 3);
        [simpl; auto | simpl; auto | simpl; auto
        | vm_compute; discriminate | vm_compute; discriminate | vm_compute; discriminate |].
      intros p Hp; simpl in Hp.
      destruct Hp as [<-|[<-|[<-|[<-|[]]]]]; vm_compute; reflexivity.
    - vm_compute; reflexivity. }
  split; [exact H|].
  exact (prediction_deterministic _ _ _ _ _ _ _ _ H H).
Defined.

(** * Further properties of the script *)

Open Scope Z_scope.

Ltac zdiv := Z.div_mod_to_equations; lia.

Ltac zcmp_cases :=
  repeat match goal with
  | |- context [Z.compare ?a ?b] => destruct (Z.compare_spec a b)
  end.

Lemma N_of_digit n : 0 <= n <= 9 -> N_of_ascii (digit n) = (48 + Z.to_N n)%N.
Proof. intros H; unfold digit; apply N_ascii_embedding; lia. Qed.

Lemma digit_val_digit n : 0 <= n <= 9 -> digit_val (digit n) = Some n.
Proof.
  intros H; unfold digit_val; rewrite (N_of_digit n H).
  replace ((48 <=? 48 + Z.to_N n)%N && (48 + Z.to_N n <=? 57)%N) with true
    by (symmetry; apply andb_true_intro; split; apply N.leb_le; lia).
  f_equal; lia.
Qed.

Lemma digit_compare a b : 0 <= a <= 9 -> 0 <= b <= 9 ->
  Ascii.compare (digit a) (digit b) = Z.compare a b.
Proof.
  intros Ha Hb; unfold Ascii.compare; rewrite (N_of_digit a Ha), (N_of_digit b Hb).
  destruct (Z.compare_spec a b);
    [subst; apply N.compare_eq_iff; reflexivity
    | apply N.compare_lt_iff | apply N.compare_gt_iff]; lia.
Qed.

Lemma dec4 y : 1000 <= y <= 9999 ->
  exists a b c d, 0 <= a <= 9 /\ 0 <= b <= 9 /\ 0 <= c <= 9 /\ 0 <= d <= 9
    /\ y = 1000 * a + 100 * b + 10 * c + d
    /\ dec y = String (digit a) (String (digit b) (String (digit c) (String (digit d) EmptyString))).
Proof.
  intros H; exists (y / 10 / 10 / 10 mod 10), (y / 10 / 10 mod 10), (y / 10 mod 10), (y mod 10).
  repeat split; try zdiv.
  unfold dec.
  assert (Hn : (4 <= Z.to_nat y)%nat) by lia.
  destruct (Z.to_nat y) as [|[|[|[|f]]]]; try lia.
  cbn [dec_aux].
  replace (y <? 10) with false by (symmetry; apply Z.ltb_ge; zdiv).
  replace (y / 10 <? 10) with false by (symmetry; apply Z.ltb_ge; zdiv).
  replace (y / 10 / 10 <? 10) with false by (symmetry; apply Z.ltb_ge; zdiv).
  replace (y / 10 / 10 / 10 <? 10) with true by (symmetry; apply Z.ltb_lt; zdiv).
  reflexivity.
Qed.

Lemma pad2_eq m : 0 <= m <= 99 ->
  pad2 m = String (digit (m / 10)) (String (digit (m mod 10)) EmptyString).
Proof. reflexivity. Qed.

Lemma replace_skip old new s t :
  replace_aux old new (String.length s) (s ++ t) = replace_aux old new 0 t.
Proof. induction s as [|c s IH]; simpl; auto. Qed.

Lemma replace_nomatch old new c t :
  String.prefix old (String c t) = false ->
  replace_aux old new 0 (String c t) = String c (replace_aux old new 0 t).
Proof. intros H; cbn [replace_aux]; now rewrite H. Qed.

Lemma prefix_digit o r n t : 0 <= n <= 9 -> (57 < N_of_ascii o)%N ->
  String.prefix (String o r) (String (digit n) t) = false.
Proof.
  intros Hn Ho; simpl; destruct (ascii_dec o (digit n)) as [E|]; auto.
  rewrite E, N_of_digit in Ho by exact Hn; lia.
Qed.

Lemma replace_digit o r new n t : 0 <= n <= 9 -> (57 < N_of_ascii o)%N ->
  replace_aux (String o r) new 0 (String (digit n) t)
  = String (digit n) (replace_aux (String o r) new 0 t).
Proof. intros Hn Ho; apply replace_nomatch, prefix_digit; auto. Qed.

Lemma prefix_app_self old t : String.prefix old (old ++ t) = true.
Proof.
  induction old as [|o r IH]; [destruct t; reflexivity|].
  simpl; destruct (ascii_dec o o); congruence.
Qed.

Lemma replace_match o r new t :
  replace_aux (String o r) new 0 (String o r ++ t)
  = (new ++ replace_aux (String o r) new 0 t)%string.
Proof.
  pose proof (prefix_app_self (String o r) t) as Hp.
  change (String o r ++ t)%string with (String o (r ++ t)) in *.
  cbn [replace_aux]; rewrite Hp; simpl String.length; rewrite ?Nat.sub_0_r.
  replace (S (String.length r) - 1)%nat with (String.length r) by lia.
  now rewrite replace_skip.
Qed.

Lemma replace_year_sep X :
  replace_aux "년 " "-" 0 ("년 " ++ X) = ("-" ++ replace_aux "년 " "-" 0 X)%string.
Proof. apply replace_match. Qed.

Lemma replace_month_sep X :
  replace_aux "월" "-01" 0 ("월" ++ X) = ("-01" ++ replace_aux "월" "-01" 0 X)%string.
Proof. apply replace_match. Qed.

Lemma replace_year_month : replace_aux "년 " "-" 0 "월" = "월"%string.
Proof. reflexivity. Qed.

Lemma replace_month_dash X :
  replace_aux "월" "-01" 0 ("-" ++ X) = ("-" ++ replace_aux "월" "-01" 0 X)%string.
Proof. reflexivity. Qed.

Lemma replace_month_end : replace_aux "월" "-01" 0 "월" = "-01"%string.
Proof. reflexivity. Qed.

Lemma strftime_shape y m dd :
  1000 <= y <= 9999 ->
  exists a b c e, 0 <= a <= 9 /\ 0 <= b <= 9 /\ 0 <= c <= 9 /\ 0 <= e <= 9
    /\ y = 1000 * a + 100 * b + 10 * c + e
    /\ strftime_ym (mkTs y m dd)
       = String (digit a) (String (digit b) (String (digit c) (String (digit e)
           ("년 " ++ String (digit (m / 10)) (String (digit (m mod 10)) "월")))))%string.
Proof.
  intros Hy; destruct (dec4 y Hy) as [a [b [c [e [Ha [Hb [Hc [He [Ey Ed]]]]]]]]].
  exists a, b, c, e; refine (conj Ha (conj Hb (conj Hc (conj He (conj Ey _))))).
  unfold strftime_ym; simpl ts_year; simpl ts_month; rewrite Ed; reflexivity.
Qed.

Lemma days_in_month_ge y m : 28 <= days_in_month y m.
Proof.
  unfold days_in_month.
  destruct (m =? 2); [destruct (is_leap y); lia|].
  destruct ((m =? 4) || (m =? 6) || (m =? 9) || (m =? 11)); lia.
Qed.

Lemma ym_to_date_strftime d :
  1000 <= ts_year d <= 9999 -> 1 <= ts_month d <= 12 ->
  ym_to_date (strftime_ym d) = Some (mkTs (ts_year d) (ts_month d) 1).
Proof.
  destruct d as [y m dd]; simpl; intros Hy Hm.
  destruct (strftime_shape y m dd Hy) as [a [b [c [e [Ha [Hb [Hc [He [Ey ->]]]]]]]]].
  assert (H1 : 0 <= m / 10 <= 9) by zdiv.
  assert (H2 : 0 <= m mod 10 <= 9) by zdiv.
  unfold ym_to_date, py_replace.
  rewrite (replace_digit _ _ _ a), (replace_digit _ _ _ b), (replace_digit _ _ _ c),
    (replace_digit _ _ _ e), replace_year_sep, (replace_digit _ _ _ (m / 10)),
    (replace_digit _ _ _ (m mod 10)), replace_year_month by (auto; reflexivity).
  rewrite (replace_digit _ _ _ a), (replace_digit _ _ _ b), (replace_digit _ _ _ c),
    (replace_digit _ _ _ e), replace_month_dash, (replace_digit _ _ _ (m / 10)),
    (replace_digit _ _ _ (m mod 10)), replace_month_end by (auto; reflexivity).
  unfold parse_iso; cbn [list_ascii_of_string String.append].
  rewrite !digit_val_digit by auto.
  rewrite (eq_refl : digit_val "0"%char = Some 0), (eq_refl : digit_val "1"%char = Some 1).
  cbv beta iota zeta.
  replace (10 * (m / 10) + m mod 10) with m by zdiv.
  rewrite <- Ey; change (10 * 0 + 1) with 1.
  rewrite (eq_refl : Ascii.eqb "-" "-" = true).
  replace (1 <=? m) with true by (symmetry; apply Z.leb_le; lia).
  replace (m <=? 12) with true by (symmetry; apply Z.leb_le; lia).
  replace (1 <=? days_in_month y m) with true
    by (symmetry; apply Z.leb_le; pose proof (days_in_month_ge y m); lia).
  reflexivity.
Qed.

Lemma cmp_digit_lex q1 q2 r1 r2 : 0 <= r1 <= 9 -> 0 <= r2 <= 9 ->
  Z.compare (10 * q1 + r1) (10 * q2 + r2)
  = match Z.compare q1 q2 with Eq => Z.compare r1 r2 | c => c end.
Proof.
  intros H1 H2.
  destruct (Z.compare_spec q1 q2).
  - subst; destruct (Z.compare_spec r1 r2);
      [apply Z.compare_eq_iff | apply Z.compare_lt_iff | apply Z.compare_gt_iff]; lia.
  - apply Z.compare_lt_iff; lia.
  - apply Z.compare_gt_iff; lia.
Qed.

Lemma year_compare a1 b1 c1 e1 a2 b2 c2 e2 :
  0 <= b1 <= 9 -> 0 <= c1 <= 9 -> 0 <= e1 <= 9 ->
  0 <= b2 <= 9 -> 0 <= c2 <= 9 -> 0 <= e2 <= 9 ->
  Z.compare (1000 * a1 + 100 * b1 + 10 * c1 + e1) (1000 * a2 + 100 * b2 + 10 * c2 + e2)
  = match Z.compare a1 a2 with
    | Eq => match Z.compare b1 b2 with
            | Eq => match Z.compare c1 c2 with Eq => Z.compare e1 e2 | c => c end
            | c => c end
    | c => c end.
Proof.
  intros.
  replace (1000 * a1 + 100 * b1 + 10 * c1 + e1) with (10 * (10 * (10 * a1 + b1) + c1) + e1) by ring.
  replace (1000 * a2 + 100 * b2 + 10 * c2 + e2) with (10 * (10 * (10 * a2 + b2) + c2) + e2) by ring.
  rewrite !cmp_digit_lex by auto.
  destruct (Z.compare a1 a2), (Z.compare b1 b2), (Z.compare c1 c2); reflexivity.
Qed.

Lemma compare_label d1 d2 :
  1000 <= ts_year d1 <= 9999 -> 1 <= ts_month d1 <= 12 ->
  1000 <= ts_year d2 <= 9999 -> 1 <= ts_month d2 <= 12 ->
  String.compare (strftime_ym d1) (strftime_ym d2)
  = match Z.compare (ts_year d1) (ts_year d2) with
    | Eq => Z.compare (ts_month d1) (ts_month d2)
    | c => c
    end.
Proof.
  destruct d1 as [y1 m1 dd1], d2 as [y2 m2 dd2]; simpl; intros Hy1 Hm1 Hy2 Hm2.
  destruct (strftime_shape y1 m1 dd1 Hy1) as [a1 [b1 [c1 [e1 [Ha1 [Hb1 [Hc1 [He1 [Ey1 ->]]]]]]]]].
  destruct (strftime_shape y2 m2 dd2 Hy2) as [a2 [b2 [c2 [e2 [Ha2 [Hb2 [Hc2 [He2 [Ey2 ->]]]]]]]]].
  assert (0 <= m1 / 10 <= 9) by zdiv; assert (0 <= m1 mod 10 <= 9) by zdiv.
  assert (0 <= m2 / 10 <= 9) by zdiv; assert (0 <= m2 mod 10 <= 9) by zdiv.
  rewrite Ey1, Ey2, year_compare by auto.
  assert (Em : Z.compare m1 m2
                = match Z.compare (m1 / 10) (m2 / 10) with
                  | Eq => Z.compare (m1 mod 10) (m2 mod 10) | Lt => Lt | Gt => Gt end).
  { rewrite (Z_div_mod_eq_full m1 10) at 1; rewrite (Z_div_mod_eq_full m2 10) at 1.
    rewrite cmp_digit_lex by auto; now destruct (Z.compare (m1 / 10) (m2 / 10)). }
  rewrite Em.
  simpl String.compare.
  rewrite !digit_compare by auto.
  destruct (Z.compare a1 a2), (Z.compare b1 b2), (Z.compare c1 c2), (Z.compare e1 e2),
    (Z.compare (m1 / 10) (m2 / 10)), (Z.compare (m1 mod 10) (m2 mod 10)); reflexivity.
Qed.

Lemma ts_leb_first_l y m d :
  1 <= m <= 12 -> 1 <= ts_month d <= 12 -> 1 <= ts_day d ->
  ts_leb (mkTs y m 1) d = true <-> 12 * y + m <= 12 * ts_year d + ts_month d.
Proof.
  destruct d as [y' m' d']; cbn [ts_year ts_month ts_day]; intros Hm Hm' Hd.
  unfold ts_leb, ts_compare; cbn [ts_year ts_month ts_day].
  zcmp_cases; split; intros; try discriminate; try lia; reflexivity.
Qed.

Lemma ts_leb_first_r y m d :
  1 <= m <= 12 -> 1 <= ts_month d <= 12 -> 1 <= ts_day d ->
  ts_leb d (mkTs y m 1) = true
  <-> 12 * ts_year d + ts_month d < 12 * y + m
      \/ (12 * ts_year d + ts_month d = 12 * y + m /\ ts_day d = 1).
Proof.
  destruct d as [y' m' d']; cbn [ts_year ts_month ts_day]; intros Hm Hm' Hd.
  unfold ts_leb, ts_compare; cbn [ts_year ts_month ts_day].
  zcmp_cases; split; intros; try discriminate; try lia; reflexivity.
Qed.

(** X3: with the period bounds chosen as the labels of two valid months, the date filter of line 80 keeps a row exactly when its month is not before the start month and it lies before the end month, or in the end month on its first day. *)
Theorem period_filter_by_month ds de d :
  1000 <= ts_year ds <= 9999 -> 1 <= ts_month ds <= 12 ->
  1000 <= ts_year de <= 9999 -> 1 <= ts_month de <= 12 ->
  1 <= ts_month d <= 12 -> 1 <= ts_day d ->
  exists start_date end_date,
    ym_to_date (strftime_ym ds) = Some start_date
    /\ ym_to_date (strftime_ym de) = Some end_date
    /\ (in_period start_date end_date d = true
        <-> 12 * ts_year ds + ts_month ds <= 12 * ts_year d + ts_month d
            /\ (12 * ts_year d + ts_month d < 12 * ts_year de + ts_month de
                \/ (12 * ts_year d + ts_month d = 12 * ts_year de + ts_month de
                    /\ ts_day d = 1))).
Proof.
  intros Hys Hms Hye Hme Hmd Hdd.
  exists (mkTs (ts_year ds) (ts_month ds) 1), (mkTs (ts_year de) (ts_month de) 1).
  rewrite !ym_to_date_strftime by assumption.
  split; [reflexivity|split; [reflexivity|]].
  unfold in_period; rewrite andb_true_iff, ts_leb_first_l, ts_leb_first_r by assumption.
  reflexivity.
Qed.

Lemma period_filter_by_month_witness :
  let ds := mkTs 2023 1 1 in let de := mkTs 2023 12 31 in let d := mkTs 2023 12 15 in
  (1000 <= ts_year ds <= 9999 /\ 1 <= ts_month ds <= 12
   /\ 1000 <= ts_year de <= 9999 /\ 1 <= ts_month de <= 12
   /\ 1 <= ts_month d <= 12 /\ 1 <= ts_day d)
  /\ exists start_date end_date,
    ym_to_date (strftime_ym ds) = Some start_date
    /\ ym_to_date (strftime_ym de) = Some end_date
    /\ (in_period start_date end_date d = true
        <-> 12 * ts_year ds + ts_month ds <= 12 * ts_year d + ts_month d
            /\ (12 * ts_year d + ts_month d < 12 * ts_year de + ts_month de
                \/ (12 * ts_year d + ts_month d = 12 * ts_year de + ts_month de
                    /\ ts_day d = 1))).
Proof.
  cbv zeta; split; [cbn; lia|].
  apply period_filter_by_month; cbn; lia.
Defined.

(** ** Strings: order, [unique] and [sorted] *)

Lemma string_compare_refl a : String.compare a a = Eq.
Proof.
  induction a as [|x a IH]; simpl; auto.
  unfold Ascii.compare; now rewrite N.compare_refl.
Qed.

Lemma string_leb_refl a : String.leb a a = true.
Proof. unfold String.leb; now rewrite string_compare_refl. Qed.

Lemma string_leb_trans a b c :
  String.leb a b = true -> String.leb b c = true -> String.leb a c = true.
Proof.
  unfold String.leb; revert b c.
  induction a as [|x a IH]; intros [|y b] [|z c]; simpl; try discriminate; auto.
  unfold Ascii.compare.
  destruct (N.compare_spec (N_of_ascii x) (N_of_ascii y)) as [Exy|Lxy|Gxy];
    destruct (N.compare_spec (N_of_ascii y) (N_of_ascii z)) as [Eyz|Lyz|Gyz];
    intros H1 H2; try discriminate.
  - rewrite Exy, Eyz, N.compare_refl; eapply IH; eauto.
  - rewrite Exy, (proj2 (N.compare_lt_iff _ _) Lyz); reflexivity.
  - rewrite <- Eyz, (proj2 (N.compare_lt_iff _ _) Lxy); reflexivity.
  - rewrite (proj2 (N.compare_lt_iff (N_of_ascii x) (N_of_ascii z))) by lia; reflexivity.
Qed.

Lemma string_leb_false a b : String.leb a b = false -> String.leb b a = true.
Proof.
  unfold String.leb; rewrite (String.compare_antisym b a).
  destruct (String.compare a b); simpl; congruence.
Qed.

Lemma string_leb_lt a b : String.leb a b = true -> a <> b -> String.compare a b = Lt.
Proof.
  unfold String.leb; destruct (String.compare a b) eqn:E; auto; try discriminate.
  intros _ N; now apply String.compare_eq_iff in E.
Qed.

Lemma existsb_eqb_in x l : existsb (String.eqb x) l = true <-> In x l.
Proof.
  rewrite existsb_exists; split.
  - intros [y [Hy E]]; apply String.eqb_eq in E; now subst.
  - intros H; exists x; split; auto; apply String.eqb_refl.
Qed.

Lemma in_unique_aux seen l x :
  In x (unique_aux seen l) <-> In x l /\ ~ In x seen.
Proof.
  revert seen; induction l as [|a l IH]; intros seen; simpl; [tauto|].
  destruct (existsb (String.eqb a) seen) eqn:E.
  - apply existsb_eqb_in in E; rewrite IH; split.
    + tauto.
    + intros [[<-|H] N]; tauto.
  - assert (Na : ~ In a seen) by (rewrite <- existsb_eqb_in; congruence).
    simpl; rewrite IH; simpl; split.
    + intros [<-|[H N]]; [tauto|]; split; [now right|tauto].
    + intros [[<-|H] N]; [now left|].
      destruct (String.eqb_spec a x); [now left|right; split; auto].
      intros [E'|E']; [congruence|tauto].
Qed.

Lemma nodup_unique_aux seen l : NoDup (unique_aux seen l).
Proof.
  revert seen; induction l as [|a l IH]; intros seen; simpl; [constructor|].
  destruct (existsb (String.eqb a) seen); auto.
  constructor; auto.
  rewrite in_unique_aux; simpl; tauto.
Qed.

Lemma in_unique l x : In x (unique l) <-> In x l.
Proof. unfold unique; rewrite in_unique_aux; simpl; tauto. Qed.

Lemma nodup_unique l : NoDup (unique l).
Proof. apply nodup_unique_aux. Qed.

Lemma insert_str_perm x l : Permutation (insert_str x l) (x :: l).
Proof.
  induction l as [|y t IH]; simpl; auto.
  destruct (String.leb x y); auto.
  eapply perm_trans; [apply perm_skip, IH | apply perm_swap].
Qed.

Lemma py_sorted_perm l : Permutation (py_sorted l) l.
Proof.
  induction l as [|x t IH]; simpl; auto.
  eapply perm_trans; [apply insert_str_perm | now apply perm_skip].
Qed.

Lemma insert_str_sorted x l :
  Sorted (fun a b => String.leb a b = true) l ->
  Sorted (fun a b => String.leb a b = true) (insert_str x l).
Proof.
  induction 1 as [|y t Ht IH Hy]; simpl; [repeat constructor|].
  destruct (String.leb x y) eqn:E.
  - constructor; [constructor; auto|now constructor].
  - apply string_leb_false in E.
    constructor; auto.
    destruct t as [|z t]; simpl; [now constructor|].
    destruct (String.leb x z); constructor; auto.
    now inversion Hy.
Qed.

Lemma py_sorted_sorted l : Sorted (fun a b => String.leb a b = true) (py_sorted l).
Proof. induction l as [|x t IH]; simpl; [constructor|now apply insert_str_sorted]. Qed.

Lemma py_sorted_strongly l :
  StronglySorted (fun a b => String.leb a b = true) (py_sorted l).
Proof.
  apply Sorted_StronglySorted; [|apply py_sorted_sorted].
  intros a b c; apply string_leb_trans.
Qed.

Lemma in_py_sorted l x : In x (py_sorted l) <-> In x l.
Proof.
  split; apply Permutation_in; [|apply Permutation_sym]; apply py_sorted_perm.
Qed.

Lemma nodup_py_sorted l : NoDup l -> NoDup (py_sorted l).
Proof. intros H; eapply Permutation_NoDup; [apply Permutation_sym, py_sorted_perm|exact H]. Qed.

Lemma sorted_strict l :
  Sorted (fun a b => String.leb a b = true) l -> NoDup l ->
  Sorted (fun a b => String.compare a b = Lt) l.
Proof.
  induction 1 as [|a t Ht IH Ha]; intros Hn; constructor.
  - apply IH; now inversion Hn.
  - destruct Ha as [|b t' Hab]; constructor.
    apply string_leb_lt; auto.
    intros ->; inversion Hn; subst; simpl in *; tauto.
Qed.

Lemma strongly_head_le (h : string) t x :
  StronglySorted (fun a b => String.leb a b = true) (h :: t) ->
  In x (h :: t) -> String.leb h x = true.
Proof.
  intros Hs [<-|Hx]; [apply string_leb_refl|].
  apply StronglySorted_inv in Hs as [_ Hf].
  now apply (proj1 (Forall_forall _ _) Hf).
Qed.

Lemma in_last {A} (l : list A) d : l <> [] -> In (last l d) l.
Proof.
  induction l as [|a t IH]; intros H; [congruence|].
  destruct t as [|b t]; [now left|].
  right; apply IH; discriminate.
Qed.

Lemma strongly_last_ge (l : list string) d x :
  StronglySorted (fun a b => String.leb a b = true) l ->
  In x l -> String.leb x (last l d) = true.
Proof.
  induction 1 as [|a t Ht IH Hf]; intros Hx; [destruct Hx|].
  destruct t as [|b t].
  - destruct Hx as [<-|[]]; apply string_leb_refl.
  - change (last (a :: b :: t) d) with (last (b :: t) d).
    destruct Hx as [<-|Hx]; [|now apply IH].
    apply (proj1 (Forall_forall _ _) Hf); apply in_last; discriminate.
Qed.

Lemma nth_error_last {A} (l : list A) d :
  l <> [] -> nth_error l (List.length l - 1) = Some (last l d).
Proof.
  induction l as [|a t IH]; intros H; [congruence|].
  destruct t as [|b t]; [reflexivity|].
  simpl List.length; rewrite Nat.sub_succ, Nat.sub_0_r.
  change (nth_error (a :: b :: t) (S (List.length t))) with (nth_error (b :: t) (List.length t)).
  change (last (a :: b :: t) d) with (last (b :: t) d).
  specialize (IH ltac:(discriminate)); simpl List.length in IH.
  now replace (List.length t) with (S (List.length t) - 1)%nat by lia.
Qed.

Lemma py_index_first {A} (h : A) t : py_index (h :: t) 0 = Some h.
Proof. reflexivity. Qed.

Lemma py_index_last {A} (l : list A) d : l <> [] -> py_index l (-1) = Some (last l d).
Proof.
  intros H; unfold py_index; simpl.
  assert (Hl : (1 <= List.length l)%nat) by (destruct l; [congruence|simpl; lia]).
  replace (Z.of_nat (List.length l) + -1 <? 0) with false by (symmetry; apply Z.ltb_ge; lia).
  replace (Z.to_nat (Z.of_nat (List.length l) + -1)) with (List.length l - 1)%nat by lia.
  now apply nth_error_last.
Qed.

Lemma label_leb a b :
  1000 <= ts_year a <= 9999 -> 1 <= ts_month a <= 12 ->
  1000 <= ts_year b <= 9999 -> 1 <= ts_month b <= 12 ->
  String.leb (strftime_ym a) (strftime_ym b) = true
  <-> 12 * ts_year a + ts_month a <= 12 * ts_year b + ts_month b.
Proof.
  intros; unfold String.leb; rewrite compare_label by assumption.
  zcmp_cases; split; intros; try discriminate; try lia; reflexivity.
Qed.

Lemma in_ym_options dates x :
  In x (ym_options dates) <-> exists d, In d dates /\ x = strftime_ym d.
Proof.
  unfold ym_options; rewrite in_py_sorted, in_unique, in_map_iff.
  split; intros [d [H1 H2]]; exists d; auto.
Qed.

(** The options of the period slider are the 년월 labels of the data, each
    once, in chronological order; by default the slider spans the first
    and the last of them. *)
(** X4: with the default slider value (line 60) on non-empty valid data, the period spans the earliest and the latest month of the data, and the filter of line 80 then keeps every row except those of the latest month dated after its first day. *)
Theorem default_period_latest_month dates :
  dates <> [] ->
  Forall (fun d => 1000 <= ts_year d <= 9999 /\ 1 <= ts_month d <= 12 /\ 1 <= ts_day d) dates ->
  exists first last start_date end_date,
    In first dates /\ In last dates
    /\ slider_default (ym_options dates) = Some (strftime_ym first, strftime_ym last)
    /\ ym_to_date (strftime_ym first) = Some start_date
    /\ ym_to_date (strftime_ym last) = Some end_date
    /\ forall d, In d dates ->
         12 * ts_year first + ts_month first <= 12 * ts_year d + ts_month d
         <= 12 * ts_year last + ts_month last
         /\ (in_period start_date end_date d = true
             <-> 12 * ts_year d + ts_month d < 12 * ts_year last + ts_month last
                 \/ ts_day d = 1).
Proof.
  intros Hne Hv; rewrite Forall_forall in Hv.
  destruct dates as [|d0 ds]; [congruence|].
  assert (Hin0 : In (strftime_ym d0) (ym_options (d0 :: ds)))
    by (apply in_ym_options; exists d0; split; [now left|reflexivity]).
  pose proof (py_sorted_strongly (unique (map strftime_ym (d0 :: ds)))) as Hs.
  fold (ym_options (d0 :: ds)) in Hs.
  destruct (ym_options (d0 :: ds)) as [|h t] eqn:Eo; [destruct Hin0|].
  assert (Hh : In h (ym_options (d0 :: ds))) by (rewrite Eo; now left).
  assert (Hl : In (last (h :: t) h) (ym_options (d0 :: ds)))
    by (rewrite Eo; apply in_last; discriminate).
  apply in_ym_options in Hh as [first [Hf ->]].
  apply in_ym_options in Hl as [last [Hla Ela]].
  destruct (Hv first Hf) as [Fy [Fm Fd]]; destruct (Hv last Hla) as [Ly [Lm Ld]].
  exists first, last, (mkTs (ts_year first) (ts_month first) 1),
    (mkTs (ts_year last) (ts_month last) 1).
  split; [exact Hf|split; [exact Hla|]].
  split.
  { unfold slider_default; rewrite py_index_first, (py_index_last _ (strftime_ym first))
      by discriminate.
    now rewrite Ela. }
  rewrite !ym_to_date_strftime by assumption.
  split; [reflexivity|split; [reflexivity|]].
  intros d Hd; destruct (Hv d Hd) as [Dy [Dm Dd]].
  assert (Hdo : In (strftime_ym d) (strftime_ym first :: t))
    by (rewrite <- Eo; apply in_ym_options; now exists d).
  pose proof (strongly_head_le _ _ _ Hs Hdo) as H1.
  pose proof (strongly_last_ge _ (strftime_ym first) _ Hs Hdo) as H2.
  rewrite Ela in H2.
  rewrite label_leb in H1, H2 by assumption.
  split; [lia|].
  unfold in_period; rewrite andb_true_iff, ts_leb_first_l, ts_leb_first_r by assumption.
  lia.
Qed.

(** X5: the default value of the period slider (line 60) fails with an IndexError exactly when the data has no rows. *)
Theorem empty_data_no_period_default dates :
  slider_default (ym_options dates) = None <-> dates = [].
Proof.
  split; [|intros ->; reflexivity].
  intros H; destruct dates as [|d ds]; [reflexivity|exfalso].
  assert (Hin : In (strftime_ym d) (ym_options (d :: ds)))
    by (apply in_ym_options; exists d; split; [now left|reflexivity]).
  destruct (ym_options (d :: ds)) as [|h t]; [destruct Hin|].
  unfold slider_default in H; rewrite py_index_first, (py_index_last _ h) in H by discriminate.
  discriminate.
Qed.

(** X6: the region options of line 50 are the distinct regions of the loaded rows, each once, in strictly increasing order. *)
Theorem region_options df :
  NoDup (regions (load_data df))
  /\ Sorted (fun a b => String.compare a b = Lt) (regions (load_data df))
  /\ forall g, In g (regions (load_data df))
       <-> exists r, In r df /\ 지역 r = g
                  /\ notna (기준금리 r) = true /\ notna (평균가격 r) = true.
Proof.
  assert (Hn : NoDup (regions (load_data df))) by (apply nodup_py_sorted, nodup_unique).
  split; [exact Hn|split; [apply sorted_strict; [apply py_sorted_sorted|exact Hn]|]].
  intros g; unfold regions; rewrite in_py_sorted, in_unique, in_map_iff.
  split.
  - intros [r [<- Hr]]; unfold load_data in Hr; apply filter_In in Hr as [Hr Hb].
    apply andb_prop in Hb as [H1 H2]; now exists r.
  - intros [r [Hr [<- [H1 H2]]]]; exists r; split; auto.
    unfold load_data; apply filter_In; split; auto; now rewrite H1, H2.
Qed.

(** ** The sort of line 73 *)

Lemma string_compare_lt_trans a b c :
  String.compare a b = Lt -> String.compare b c = Lt -> String.compare a c = Lt.
Proof.
  intros H1 H2.
  assert (L : String.leb a c = true)
    by (apply (string_leb_trans a b c); unfold String.leb; [rewrite H1|rewrite H2]; reflexivity).
  apply string_leb_lt; auto.
  intros <-; rewrite String.compare_antisym, H2 in H1; discriminate.
Qed.

Lemma key_leb_false a b : key_leb a b = false -> key_leb b a = true.
Proof.
  unfold key_leb; rewrite (String.compare_antisym (지역 b) (지역 a)).
  destruct (String.compare (지역 a) (지역 b)); simpl; try discriminate; auto.
  intros H; apply Z.leb_gt in H; apply Z.leb_le; lia.
Qed.

Lemma key_leb_trans a b c : key_leb a b = true -> key_leb b c = true -> key_leb a c = true.
Proof.
  unfold key_leb.
  destruct (String.compare (지역 a) (지역 b)) eqn:Eab; try discriminate;
    destruct (String.compare (지역 b) (지역 c)) eqn:Ebc; try discriminate; intros H1 H2.
  - apply String.compare_eq_iff in Eab, Ebc; rewrite Eab, Ebc, string_compare_refl.
    apply Z.leb_le in H1, H2; apply Z.leb_le; lia.
  - apply String.compare_eq_iff in Eab; now rewrite Eab, Ebc.
  - apply String.compare_eq_iff in Ebc; rewrite <- Ebc, Eab; reflexivity.
  - now rewrite (string_compare_lt_trans _ _ _ Eab Ebc).
Qed.

Lemma insert_row_sorted x l :
  Sorted (fun a b => key_leb a b = true) l ->
  Sorted (fun a b => key_leb a b = true) (insert_row x l).
Proof.
  induction 1 as [|y t Ht IH Hy]; simpl; [repeat constructor|].
  destruct (key_leb x y) eqn:E.
  - constructor; [constructor; auto|now constructor].
  - apply key_leb_false in E.
    constructor; auto.
    destruct t as [|z t]; simpl; [now constructor|].
    destruct (key_leb x z); constructor; auto.
    now inversion Hy.
Qed.

Lemma sort_values_sorted l : Sorted (fun a b => key_leb a b = true) (sort_values l).
Proof. induction l as [|x t IH]; simpl; [constructor|now apply insert_row_sorted]. Qed.

Lemma sort_values_strongly l :
  StronglySorted (fun a b => key_leb a b = true) (sort_values l).
Proof.
  apply Sorted_StronglySorted; [|apply sort_values_sorted].
  intros a b c; apply key_leb_trans.
Qed.

Lemma sorted_weaken {A} (R R' : A -> A -> Prop) l :
  (forall a b, R a b -> R' a b) -> Sorted R l -> Sorted R' l.
Proof.
  intros HR; induction 1 as [|a t Ht IH Ha]; constructor; auto.
  destruct Ha; constructor; auto.
Qed.

(** [sort_values] orders the rows by (region, date) and keeps all of them. *)
(** X7: the sort of line 73 returns a permutation of its input ordered by region and, within a region, by date. *)
Theorem sort_values_sorted_perm l :
  Sorted (fun a b => String.compare (지역 a) (지역 b) = Lt
                     \/ (지역 a = 지역 b /\ (날짜 a <= 날짜 b)%Z)) (sort_values l)
  /\ Permutation (sort_values l) l.
Proof.
  split; [|apply sort_values_perm].
  eapply sorted_weaken; [|apply sort_values_sorted].
  intros a b; unfold key_leb.
  destruct (String.compare (지역 a) (지역 b)) eqn:E; try discriminate; auto.
  intros H; apply String.compare_eq_iff in E; apply Z.leb_le in H; right; auto.
Qed.

Lemma filter_insert_row_key g t y s :
  let P := fun r => String.eqb (지역 r) g && Z.eqb (날짜 r) t in
  filter P (insert_row y s) = filter P (y :: s).
Proof.
  intros P; induction s as [|z s IH]; simpl; auto.
  destruct (key_leb y z) eqn:E; [reflexivity|].
  simpl; rewrite IH; simpl.
  destruct (P y) eqn:Py, (P z) eqn:Pz; auto.
  exfalso; unfold P in Py, Pz.
  apply andb_prop in Py as [Gy Ty]; apply andb_prop in Pz as [Gz Tz].
  apply String.eqb_eq in Gy, Gz; apply Z.eqb_eq in Ty, Tz.
  unfold key_leb in E; rewrite Gy, Gz, string_compare_refl in E.
  apply Z.leb_gt in E; lia.
Qed.

(** The sort is stable: the rows with a given (region, date) key keep the
    order they have in the file. *)
(** X8: the sort of line 73 is stable: rows with the same region and date keep their relative order. *)
Theorem sort_values_stable g t l :
  filter (fun r => String.eqb (지역 r) g && Z.eqb (날짜 r) t) (sort_values l)
  = filter (fun r => String.eqb (지역 r) g && Z.eqb (날짜 r) t) l.
Proof.
  induction l as [|x l IH]; simpl; auto.
  rewrite (filter_insert_row_key g t x (sort_values l)); simpl.
  now rewrite IH.
Qed.

(** ** The shift of line 74 and the working series *)

(** X9: the shift of line 74 keeps every row and its order, and in each region the first [k] rows receive a NaN lagged rate. *)
Theorem shift_keeps_rows k data :
  map l_obs (shift_lag k data) = data
  /\ forall g i lr,
       nth_error (lag_group g (shift_lag k data)) i = Some lr ->
       (i < k)%nat -> 기준금리_시차 lr = CNA.
Proof.
  split; [apply map_obs_group_shift|].
  intros g i lr Hi Hik.
  destruct (shift_lag_spec k g data i lr Hi) as [_ ->].
  unfold lag_at; now replace ((k <=? i)%nat) with false by (symmetry; apply Nat.leb_gt; lia).
Qed.

Lemma permutation_filter {A} (f : A -> bool) l l' :
  Permutation l l' -> Permutation (filter f l) (filter f l').
Proof.
  induction 1; simpl; auto.
  - destruct (f x); auto.
  - destruct (f x), (f y); auto; apply perm_swap.
  - eapply perm_trans; eauto.
Qed.

(** X10: if the selected region has fewer than [k] + 3 loaded rows, the script shows the warning whatever the period is. *)
Theorem lag_needs_history df sel s e k :
  (List.length (filter (same_region sel) (load_data df)) < k + 3)%nat ->
  predictor df sel s e k = Advisory.
Proof.
  intros H; apply predictor_advisory.
  rewrite length_region_data.
  eapply Nat.le_lt_trans; [apply length_filter_le|].
  rewrite length_skipn; unfold region_group.
  rewrite (Permutation_length (permutation_filter (same_region sel) _ _ (sort_values_perm _))).
  lia.
Qed.

Lemma lag_needs_history_witness :
  (List.length (filter (same_region "A") (load_data table_a)) < 2 + 3)%nat
  /\ predictor table_a "A" 1 4 2 = Advisory.
Proof.
  split; [vm_compute; lia|].
  apply lag_needs_history; vm_compute; lia.
Defined.

Lemma strongly_filter {A} (R : A -> A -> Prop) f l :
  StronglySorted R l -> StronglySorted R (filter f l).
Proof.
  induction 1 as [|a t Ht IH Hf]; simpl; [constructor|].
  destruct (f a); auto; constructor; auto.
  rewrite Forall_forall in *; intros x Hx; apply filter_In in Hx as [Hx _]; auto.
Qed.

Lemma strongly_skipn {A} (R : A -> A -> Prop) k l :
  StronglySorted R l -> StronglySorted R (skipn k l).
Proof.
  revert l; induction k as [|k IH]; intros l H; simpl; auto.
  destruct l as [|a t]; auto; apply IH; now inversion H.
Qed.

Lemma strongly_weaken_in {A} (R R' : A -> A -> Prop) l :
  (forall a b, In a l -> In b l -> R a b -> R' a b) ->
  StronglySorted R l -> StronglySorted R' l.
Proof.
  intros HR H; induction H as [|a t Ht IH Hf]; constructor.
  - apply IH; intros x y Hx Hy; apply HR; now right.
  - rewrite Forall_forall in *; intros x Hx; apply HR; [now left|now right|auto].
Qed.

Lemma strongly_map {A B} (R : B -> B -> Prop) (f : A -> B) l :
  StronglySorted R (map f l) -> StronglySorted (fun a b => R (f a) (f b)) l.
Proof.
  induction l as [|a t IH]; simpl; intros H; constructor; inversion H; subst; auto.
  rewrite Forall_forall in *; intros x Hx; apply H3; now apply in_map.
Qed.

Lemma in_skipn_in {A} k (l : list A) x : In x (skipn k l) -> In x l.
Proof. intros H; rewrite <- (firstn_skipn k l); apply in_or_app; now right. Qed.

(** X11: the working series of lines 79-81 is ordered by date, and all of its rows belong to the selected region and lie within the selected dates. *)
Theorem working_series_chronological df sel s e k :
  Sorted (fun a b => (날짜 (l_obs a) <= 날짜 (l_obs b))%Z) (region_data df sel s e k)
  /\ forall lr, In lr (region_data df sel s e k) ->
       지역 (l_obs lr) = sel /\ (s <= 날짜 (l_obs lr) <= e)%Z.
Proof.
  pose proof (map_obs_region_data df sel s e k) as Hm.
  set (G := region_group sel (sort_values (load_data df))) in Hm.
  assert (HG : forall r, In r G -> 지역 r = sel).
  { intros r Hr; apply filter_In in Hr as [_ Hr]; now apply same_region_eq. }
  split.
  - apply StronglySorted_Sorted.
    apply (strongly_map (fun a b => (날짜 a <= 날짜 b)%Z) l_obs).
    rewrite Hm; apply strongly_filter, strongly_skipn.
    apply (strongly_weaken_in (fun a b => key_leb a b = true)).
    + intros a b Ha Hb Hab; unfold key_leb in Hab.
      rewrite (HG a Ha), (HG b Hb), string_compare_refl in Hab.
      now apply Z.leb_le.
    + apply strongly_filter, sort_values_strongly.
  - intros lr Hlr; apply (in_map l_obs) in Hlr; rewrite Hm in Hlr.
    apply filter_In in Hlr as [Hlr Hr]; apply in_skipn_in in Hlr.
    split; [now apply HG|].
    unfold in_range in Hr; apply andb_true_iff in Hr as [H1 H2].
    apply Z.leb_le in H1; apply Z.leb_le in H2; lia.
Qed.

(** ** The fitted model *)

Open Scope Q_scope.

Lemma predict_zero w q : predict w (mkCoef 0 0 0) q == mean (map snd w).
Proof. unfold predict, intercept; simpl; change (my w) with (mean (map snd w)); ring. Qed.

Lemma prediction_flat_iff df sel s e k rd w c q p :
  predictor df sel s e k = Report rd w c -> fit_spec w (mkCoef 0 0 0) ->
  (prediction (predictor df sel s e k) q p <-> p == mean (map snd w)).
Proof.
  intros Hrun F; rewrite Hrun; unfold prediction; split.
  - intros [c' [Fc E]]; rewrite E, (predict_fit_unique w c' (mkCoef 0 0 0) q Fc F).
    apply predict_zero.
  - intros E; exists (mkCoef 0 0 0); split; [exact F|]; now rewrite E, predict_zero.
Qed.

(** X12: when every lagged rate of the working series is the same, the prediction at any query rate is the mean price of the series. *)
Theorem constant_rate_flat_prediction df sel s e k rd w c r0 q p :
  predictor df sel s e k = Report rd w c ->
  (forall x, In x (map fst w) -> x == r0) ->
  (prediction (predictor df sel s e k) q p <-> p == mean (map snd w)).
Proof.
  intros Hrun Hx; pose proof (report_nonempty _ _ _ _ _ _ _ _ Hrun) as Hne.
  apply (prediction_flat_iff _ _ _ _ _ rd _ c); [exact Hrun|].
  apply fit_flat; [exact Hne|]; left.
  assert (Hm : m1 w == r0).
  { rewrite (m1_eq w), (qsum_const fst r0 w);
      [field; apply (qlen_w_nz w Hne)|].
    intros x Hin; apply Hx, in_map, Hin. }
  intros x Hin; rewrite Hm; apply Hx, in_map, Hin.
Qed.

Lemma constant_rate_flat_prediction_witness :
  predictor table_flat "B" 1 3 0
  = Report (region_data table_flat "B" 1 3 0) [(2, 10); (2, 20); (2, 40)]
      (corrcoef (map fst [(2, 10); (2, 20); (2, 40)]) (map snd [(2, 10); (2, 20); (2, 40)]))
  /\ (forall x, In x (map fst [(2, 10); (2, 20); (2, 40)]) -> x == 2)
  /\ (prediction (predictor table_flat "B" 1 3 0) 7 (70 # 3) <-> 70 # 3 == mean [10; 20; 40]).
Proof.
  assert (H : predictor table_flat "B" 1 3 0
              = Report (region_data table_flat "B" 1 3 0) [(2, 10); (2, 20); (2, 40)]
                  (corrcoef (map fst [(2, 10); (2, 20); (2, 40)])
                            (map snd [(2, 10); (2, 20); (2, 40)])))
    by (apply predictor_report; [reflexivity | vm_compute; lia | vm_compute; reflexivity]).
  assert (Hx : forall x, In x (map fst [(2, 10); (2, 20); (2, 40)]) -> x == 2)
    by (simpl; intros x [<-|[<-|[<-|[]]]]; reflexivity).
  split; [exact H|]; split; [exact Hx|].
  exact (constant_rate_flat_prediction _ _ _ _ _ _ _ _ 2 7 (70 # 3) H Hx).
Defined.

(** X13: when every price of the working series is the same value, the prediction at any query rate is that value. *)
Theorem constant_price_prediction df sel s e k rd w c y0 q p :
  predictor df sel s e k = Report rd w c ->
  (forall y, In y (map snd w) -> y == y0) ->
  (prediction (predictor df sel s e k) q p <-> p == y0).
Proof.
  intros Hrun Hy; pose proof (report_nonempty _ _ _ _ _ _ _ _ Hrun) as Hne.
  assert (Hm : my w == y0).
  { rewrite (my_eq w), (qsum_const snd y0 w);
      [field; apply (qlen_w_nz w Hne)|].
    intros x Hin; apply Hy, in_map, Hin. }
  rewrite (prediction_flat_iff _ _ _ _ _ rd w c q p); [|exact Hrun|].
  - change (mean (map snd w)) with (my w); rewrite Hm; reflexivity.
  - apply fit_flat; [exact Hne|]; right.
    intros x Hin; rewrite Hm; apply Hy, in_map, Hin.
Qed.


Lemma constant_price_prediction_witness :
  predictor table_const "C" 1 3 0
  = Report (region_data table_const "C" 1 3 0) [(1, 50); (2, 50); (4, 50)]
      (corrcoef (map fst [(1, 50); (2, 50); (4, 50)]) (map snd [(1, 50); (2, 50); (4, 50)]))
  /\ (forall y, In y (map snd [(1, 50); (2, 50); (4, 50)]) -> y == 50)
  /\ (prediction (predictor table_const "C" 1 3 0) 9 50 <-> 50 == 50).
Proof.
  assert (H : predictor table_const "C" 1 3 0
              = Report (region_data table_const "C" 1 3 0) [(1, 50); (2, 50); (4, 50)]
                  (corrcoef (map fst [(1, 50); (2, 50); (4, 50)])
                            (map snd [(1, 50); (2, 50); (4, 50)])))
    by (apply predictor_report; [reflexivity | vm_compute; lia | vm_compute; reflexivity]).
  assert (Hy : forall y, In y (map snd [(1, 50); (2, 50); (4, 50)]) -> y == 50)
    by (simpl; intros x [<-|[<-|[<-|[]]]]; reflexivity).
  split; [exact H|]; split; [exact Hy|].
  exact (constant_price_prediction _ _ _ _ _ _ _ _ 50 9 50 H Hy).
Defined.

Lemma qsum_affine {A} (a b1 b2 b3 : Q) (f g h : A -> Q) (l : list A) :
  qsum (map (fun p => a + (b1 * f p + b2 * g p + b3 * h p)) l)
  == qlen l * a + b1 * qsum (map f l) + b2 * qsum (map g l) + b3 * qsum (map h l).
Proof.
  induction l as [|x l IH]; simpl map; rewrite ?qsum_cons.
  - unfold qlen, qsum; simpl; ring.
  - rewrite IH, qlen_cons; ring.
Qed.

Lemma qsum_feat_mean (f : Q -> Q) (w : list (Q * Q)) :
  ~ qlen w == 0 -> qsum (map (fun p => f (fst p)) w) == qlen w * mean (map f (map fst w)).
Proof.
  intros Hn; unfold mean; rewrite map_map.
  assert (E : qlen (map (fun p => f (fst p)) w) = qlen w) by (unfold qlen; now rewrite length_map).
  rewrite E; field; exact Hn.
Qed.

(** X14: the fitted model, evaluated at the rates of the working series, has the mean price of the series as its mean. *)
Theorem fitted_mean_price df sel s e k rd w c cf :
  predictor df sel s e k = Report rd w c -> fit_spec w cf ->
  mean (map (fun p => predict w cf (fst p)) w) == mean (map snd w).
Proof.
  intros Hrun _; pose proof (report_nonempty _ _ _ _ _ _ _ _ Hrun) as Hne.
  pose proof (qlen_w_nz w Hne) as Hn.
  unfold mean.
  assert (E : qlen (map (fun p => predict w cf (fst p)) w) = qlen (map snd w))
    by (unfold qlen; now rewrite !length_map).
  rewrite E; apply Qdiv_comp; [|reflexivity].
  unfold predict.
  rewrite (qsum_affine (intercept w cf) (w0 cf) (w1 cf) (w2 cf)
             (fun p => feat0 (fst p)) (fun p => feat1 (fst p)) (fun p => feat2 (fst p))).
  rewrite !(qsum_feat_mean _ w Hn).
  unfold intercept, m0, m1, m2, my, xs, ys. idtac.
  rewrite (my_eq w : mean (map snd w) == _); field; exact Hn.
Qed.

Lemma fitted_mean_price_witness :
  predictor table_a "A" 1 4 0
  = Report (region_data table_a "A" 1 4 0) [(1, 10); (2, 20); (3, 30); (4, 40)]
      (corrcoef (map fst [(1, 10); (2, 20); (3, 30); (4, 40)])
                (map snd [(1, 10); (2, 20); (3, 30); (4, 40)]))
  /\ fit_spec [(1, 10); (2, 20); (3, 30); (4, 40)] (mkCoef 0 10 0)
  /\ mean (map (fun p => predict [(1, 10); (2, 20); (3, 30); (4, 40)] (mkCoef 0 10 0) (fst p))
             [(1, 10); (2, 20); (3, 30); (4, 40)])
     == mean (map snd [(1, 10); (2, 20); (3, 30); (4, 40)]).
Proof.
  assert (H : predictor table_a "A" 1 4 0
              = Report (region_data table_a "A" 1 4 0) [(1, 10); (2, 20); (3, 30); (4, 40)]
                  (corrcoef (map fst [(1, 10); (2, 20); (3, 30); (4, 40)])
                            (map snd [(1, 10); (2, 20); (3, 30); (4, 40)])))
    by (apply predictor_report; [reflexivity | vm_compute; lia | vm_compute; reflexivity]).
  assert (F : fit_spec [(1, 10); (2, 20); (3, 30); (4, 40)] (mkCoef 0 10 0)).
  { apply (fit_generated _ 0 10 0 1 2 3);
      [simpl; auto | simpl; auto | simpl; auto
      | vm_compute; discriminate | vm_compute; discriminate | vm_compute; discriminate |].
    intros p Hp; simpl in Hp.
    destruct Hp as [<-|[<-|[<-|[<-|[]]]]]; vm_compute; reflexivity. }
  split; [exact H|]; split; [exact F|].
  exact (fitted_mean_price _ _ _ _ _ _ _ _ _ H F).
Defined.

(** X15: the coefficient of the constant feature of [PolynomialFeatures] is zero in every fit of a non-empty series. *)
Theorem bias_coef_zero w c :
  w <> [] -> fit_spec w c -> w0 c == 0.
Proof.
  intros Hne [M N].
  assert (Hs : ssr w (mkCoef 0 (w1 c) (w2 c)) <= ssr w c).
  { unfold ssr; rewrite (qsum_ext (fun p => resid w (mkCoef 0 (w1 c) (w2 c)) p
                                           * resid w (mkCoef 0 (w1 c) (w2 c)) p)
                                  (fun p => resid w c p * resid w c p));
      [apply Qle_refl|].
    intros p _; rewrite !(resid_unfold w Hne); reflexivity. }
  pose proof (N _ Hs) as Hn; unfold coef_norm in Hn; simpl in Hn.
  assert (Z : w0 c * w0 c == 0) by (pose proof (Qsq_nonneg (w0 c)); lra).
  now destruct (Qmult_integral _ _ Z).
Qed.

Lemma bias_coef_zero_witness :
  [(1, 10); (2, 20); (3, 30)] <> []
  /\ fit_spec [(1, 10); (2, 20); (3, 30)] (mkCoef 0 10 0)
  /\ w0 (mkCoef 0 10 0) == 0.
Proof.
  assert (F : fit_spec [(1, 10); (2, 20); (3, 30)] (mkCoef 0 10 0)).
  { apply (fit_generated _ 0 10 0 1 2 3);
      [simpl; auto | simpl; auto | simpl; auto
      | vm_compute; discriminate | vm_compute; discriminate | vm_compute; discriminate |].
    intros p Hp; simpl in Hp.
    destruct Hp as [<-|[<-|[<-|[]]]]; vm_compute; reflexivity. }
  split; [discriminate|]; split; [exact F|].
  refine (bias_coef_zero _ _ _ F); discriminate.
Defined.

(** X16: adding a constant to every price leaves the fitted coefficients unchanged and shifts every prediction by that constant. *)
Theorem price_shift_fit w d c q :
  w <> [] ->
  (fit_spec (map (fun p => (fst p, snd p + d)) w) c <-> fit_spec w c)
  /\ predict (map (fun p => (fst p, snd p + d)) w) c q == predict w c q + d.
Proof.
  intros Hne.
  set (w' := map (fun p => (fst p, snd p + d)) w).
  assert (Hx : xs w' = xs w) by (unfold xs, w'; now rewrite map_map).
  assert (Hl : qlen w' = qlen w) by (unfold qlen, w'; now rewrite length_map).
  pose proof (qlen_w_nz w Hne) as Hn.
  assert (Hmy : my w' == my w + d).
  { rewrite (my_eq w'), (my_eq w), Hl; unfold w'; rewrite map_map; simpl.
    rewrite (qsum_ext _ (fun p => d + (1 * snd p + 0 * snd p + 0 * snd p)) w) by (intros; simpl; ring).
    rewrite (qsum_affine d 1 0 0 snd snd snd w); field; exact Hn. }
  assert (Hr : forall c' p, resid w' c' (fst p, snd p + d) == resid w c' p).
  { intros c' p; unfold resid, m0, m1, m2; rewrite Hx, Hmy; simpl; ring. }
  assert (Hs : forall c', ssr w' c' == ssr w c').
  { intros c'; unfold ssr; subst w'; rewrite map_map.
    apply qsum_ext; intros p _; now rewrite (Hr c' p). }
  split.
  - unfold fit_spec; split; intros [M N]; split.
    + intros c'; rewrite <- !Hs; apply M.
    + intros c' H; apply N; now rewrite !Hs.
    + intros c'; rewrite !Hs; apply M.
    + intros c' H; apply N; now rewrite <- !Hs.
  - unfold predict, intercept, m0, m1, m2; rewrite Hx, Hmy; ring.
Qed.

Lemma price_shift_fit_witness :
  [(1, 10); (2, 20)] <> []
  /\ (fit_spec (map (fun p => (fst p, snd p + 5)) [(1, 10); (2, 20)]) (mkCoef 0 10 0)
      <-> fit_spec [(1, 10); (2, 20)] (mkCoef 0 10 0))
  /\ predict (map (fun p => (fst p, snd p + 5)) [(1, 10); (2, 20)]) (mkCoef 0 10 0) 3
     == predict [(1, 10); (2, 20)] (mkCoef 0 10 0) 3 + 5.
Proof.
  split; [discriminate|].
  refine (price_shift_fit _ 5 _ 3 _); discriminate.
Defined.

(** ** The x-range of the regression curve (line 110) *)

Lemma qmin_cases x y : (Qmin x y = x /\ x <= y) \/ (Qmin x y = y /\ y <= x).
Proof.
  unfold Qmin, GenericMinMax.gmin.
  destruct (Qcompare_spec x y) as [H|H|H]; [left|left|right]; split; auto; lra.
Qed.

Lemma qmax_cases x y : (Qmax x y = y /\ x <= y) \/ (Qmax x y = x /\ y <= x).
Proof.
  unfold Qmax, GenericMinMax.gmax.
  destruct (Qcompare_spec x y) as [H|H|H]; [right|left|right]; split; auto; lra.
Qed.

Lemma fold_min t : forall x,
  fold_left Qmin t x <= x /\ (forall y, In y t -> fold_left Qmin t x <= y)
  /\ (fold_left Qmin t x = x \/ In (fold_left Qmin t x) t).
Proof.
  induction t as [|a t IH]; intros x; simpl.
  - split; [apply Qle_refl|]; split; [tauto|now left].
  - destruct (IH (Qmin x a)) as [L1 [L2 L3]].
    destruct (qmin_cases x a) as [[E H]|[E H]]; rewrite E in *.
    + split; [exact L1|]; split.
      * intros y [<-|Hy]; [lra|auto].
      * destruct L3; auto.
    + split; [lra|]; split.
      * intros y [<-|Hy]; [lra|auto].
      * destruct L3; auto.
Qed.

Lemma fold_max t : forall x,
  x <= fold_left Qmax t x /\ (forall y, In y t -> y <= fold_left Qmax t x)
  /\ (fold_left Qmax t x = x \/ In (fold_left Qmax t x) t).
Proof.
  induction t as [|a t IH]; intros x; simpl.
  - split; [apply Qle_refl|]; split; [tauto|now left].
  - destruct (IH (Qmax x a)) as [L1 [L2 L3]].
    destruct (qmax_cases x a) as [[E H]|[E H]]; rewrite E in *.
    + split; [lra|]; split.
      * intros y [<-|Hy]; [lra|auto].
      * destruct L3; auto.
    + split; [exact L1|]; split.
      * intros y [<-|Hy]; [lra|auto].
      * destruct L3; auto.
Qed.

Lemma qmin_list_spec l : l <> [] ->
  In (qmin_list l) l /\ forall y, In y l -> qmin_list l <= y.
Proof.
  destruct l as [|x t]; [contradiction|]; intros _; simpl.
  destruct (fold_min t x) as [L1 [L2 L3]]; split.
  - destruct L3 as [->|H]; auto.
  - intros y [<-|Hy]; auto.
Qed.

Lemma qmax_list_spec l : l <> [] ->
  In (qmax_list l) l /\ forall y, In y l -> y <= qmax_list l.
Proof.
  destruct l as [|x t]; [contradiction|]; intros _; simpl.
  destruct (fold_max t x) as [L1 [L2 L3]]; split.
  - destruct L3 as [->|H]; auto.
  - intros y [<-|Hy]; auto.
Qed.

Lemma linspace_100 m M :
  linspace m M 100
  = map (fun i => inject_Z (Z.of_nat i) * ((M - m) / inject_Z (Z.of_nat 99)) + m) (seq 0 99)
    ++ [M].
Proof.
  unfold linspace; change ((1 <? 100)%nat) with true; cbv iota.
  change ((100 - 1)%nat) with 99%nat.
  rewrite (seq_S 99 0), map_app; cbn [map]; rewrite removelast_last; reflexivity.
Qed.

Lemma linspace_point m M (i : nat) :
  m <= M -> (i <= 99)%nat ->
  m <= inject_Z (Z.of_nat i) * ((M - m) / inject_Z (Z.of_nat 99)) + m <= M.
Proof.
  intros HmM Hi.
  set (u := (M - m) / inject_Z (Z.of_nat 99)).
  assert (Hu : 0 <= u) by (unfold u; apply Qle_shift_div_l; [reflexivity|lra]).
  assert (Ht0 : 0 <= inject_Z (Z.of_nat i))
    by (change 0 with (inject_Z 0); rewrite <- Zle_Qle; lia).
  assert (Ht1 : inject_Z (Z.of_nat i) <= inject_Z (Z.of_nat 99))
    by (rewrite <- Zle_Qle; lia).
  assert (Hd : inject_Z (Z.of_nat 99) * u == M - m) by (unfold u; field; discriminate).
  pose proof (Qmult_le_0_compat _ _ Ht0 Hu).
  pose proof (Qmult_le_compat_r _ _ _ Ht1 Hu).
  lra.
Qed.

Lemma strongly_app_last (l : list Q) M :
  StronglySorted Qle l -> (forall x, In x l -> x <= M) -> StronglySorted Qle (l ++ [M]).
Proof.
  induction 1 as [|a t Ht IH Hf]; intros Hb; simpl.
  - repeat constructor.
  - constructor.
    + apply IH; intros x Hx; apply Hb; now right.
    + rewrite Forall_forall in *; intros x Hx; apply in_app_or in Hx as [Hx|[<-|[]]].
      * now apply Hf.
      * apply Hb; now left.
Qed.

Lemma strongly_map_seq (f : nat -> Q) a n :
  (forall i j, (i <= j)%nat -> f i <= f j) -> StronglySorted Qle (map f (seq a n)).
Proof.
  intros Hf; revert a; induction n as [|n IH]; intros a; simpl; constructor; auto.
  rewrite Forall_forall; intros x Hx; apply in_map_iff in Hx as [i [<- Hi]].
  apply in_seq in Hi; apply Hf; lia.
Qed.

(** X17: when the script completes (the rate column is numeric), the x values of the regression curve (line 110) are 100 nondecreasing points from the smallest to the largest lagged rate of the series, both of which occur in it. *)
Theorem curve_x_range df sel s e k rd w c :
  script df sel s e k = Report rd w c ->
  List.length (curve_x w) = 100%nat
  /\ nth 0 (curve_x w) 0 == qmin_list (map fst w)
  /\ nth 99 (curve_x w) 0 = qmax_list (map fst w)
  /\ In (qmin_list (map fst w)) (map fst w) /\ In (qmax_list (map fst w)) (map fst w)
  /\ (forall x, In x (map fst w) -> qmin_list (map fst w) <= x <= qmax_list (map fst w))
  /\ (forall x, In x (curve_x w) -> qmin_list (map fst w) <= x <= qmax_list (map fst w))
  /\ Sorted Qle (curve_x w).
Proof.
  intros Hs; destruct (script_report_inv _ _ _ _ _ _ _ _ Hs) as [Hrun _].
  pose proof (report_nonempty _ _ _ _ _ _ _ _ Hrun) as Hne.
  assert (Hne' : map fst w <> []) by (destruct w; [contradiction|discriminate]).
  destruct (qmin_list_spec _ Hne') as [Imin Lmin].
  destruct (qmax_list_spec _ Hne') as [Imax Lmax].
  set (m := qmin_list (map fst w)) in *; set (M := qmax_list (map fst w)) in *.
  assert (HmM : m <= M) by (pose proof (Lmin _ Imax); lra).
  unfold curve_x; fold m M; rewrite linspace_100.
  set (f := fun i : nat => inject_Z (Z.of_nat i) * ((M - m) / inject_Z (Z.of_nat 99)) + m).
  split; [now rewrite length_app, length_map, length_seq|].
  split; [simpl; unfold f; simpl; ring|].
  split; [rewrite app_nth2 by (rewrite length_map, length_seq; lia); rewrite length_map, length_seq; reflexivity|].
  split; [exact Imin|]; split; [exact Imax|].
  split; [intros x Hx; split; auto|].
  split.
  - intros x Hx; apply in_app_or in Hx as [Hx|[<-|[]]].
    + apply in_map_iff in Hx as [i [<- Hi]]; apply in_seq in Hi.
      apply linspace_point; [exact HmM|lia].
    + split; [exact HmM|apply Qle_refl].
  - apply StronglySorted_Sorted, strongly_app_last.
    + apply strongly_map_seq; intros i j Hij; unfold f.
      assert (Hu : 0 <= (M - m) / inject_Z (Z.of_nat 99))
        by (apply Qle_shift_div_l; [reflexivity|lra]).
      assert (Hij' : inject_Z (Z.of_nat i) <= inject_Z (Z.of_nat j))
        by (rewrite <- Zle_Qle; lia).
      pose proof (Qmult_le_compat_r _ _ _ Hij' Hu); lra.
    + intros x Hx; apply in_map_iff in Hx as [i [<- Hi]]; apply in_seq in Hi.
      apply linspace_point; [exact HmM|lia].
Qed.

Lemma curve_x_range_witness :
  script table_a "A" 1 3 0
  = Report (region_data table_a "A" 1 3 0) [(1, 10); (2, 20); (3, 30)]
      (corrcoef (map fst [(1, 10); (2, 20); (3, 30)]) (map snd [(1, 10); (2, 20); (3, 30)]))
  /\ List.length (curve_x [(1, 10); (2, 20); (3, 30)]) = 100%nat.
Proof.
  assert (H : predictor table_a "A" 1 3 0
              = Report (region_data table_a "A" 1 3 0) [(1, 10); (2, 20); (3, 30)]
                  (corrcoef (map fst [(1, 10); (2, 20); (3, 30)])
                            (map snd [(1, 10); (2, 20); (3, 30)])))
    by (apply predictor_report; [reflexivity | vm_compute; lia | vm_compute; reflexivity]).
  assert (Hs : script table_a "A" 1 3 0
               = Report (region_data table_a "A" 1 3 0) [(1, 10); (2, 20); (3, 30)]
                   (corrcoef (map fst [(1, 10); (2, 20); (3, 30)])
                             (map snd [(1, 10); (2, 20); (3, 30)])))
    by (rewrite (script_of_report _ _ _ _ _ _ _ _ H); reflexivity).
  split; [exact Hs|].
  exact (proj1 (curve_x_range _ _ _ _ _ _ _ _ Hs)).
Defined.

(** ** The correlation of an exactly linear series *)

Lemma qsum_scale {A} (t : Q) (f : A -> Q) (l : list A) :
  qsum (map (fun p => t * f p) l) == t * qsum (map f l).
Proof.
  induction l as [|x l IH]; simpl map; rewrite ?qsum_cons.
  - unfold qsum; simpl; ring.
  - rewrite IH; ring.
Qed.

Close Scope Q_scope.

Lemma corr_scaled (B caa : R) :
  (0 < caa)%R -> B <> 0%R ->
  clip (fdiv_v (fdiv (B * caa) (sqrt caa)) (sqrt (B * B * caa)))
  = Num (if Rlt_dec 0 B then 1 else -1)%R.
Proof.
  intros Hc HB.
  pose proof (sqrt_lt_R0 _ Hc) as Sa; pose proof (sqrt_sqrt _ (Rlt_le _ _ Hc)) as Ea.
  rewrite sqrt_mult_alt by (apply Rle_0_sqr).
  change (B * B)%R with (Rsqr B); rewrite sqrt_Rsqr_abs.
  set (sa := sqrt caa) in *.
  rewrite fdiv_nonzero by Lra.lra; cbn [fdiv_v].
  destruct (Rlt_dec 0 B) as [Hp|Hn].
  - rewrite Rabs_right by Lra.lra.
    rewrite fdiv_nonzero by (apply Rmult_integral_contrapositive; split; Lra.lra).
    replace (B * caa / sa / (B * sa))%R with 1%R
      by (rewrite <- Ea; field; split; Lra.lra).
    unfold clip; rewrite Rmin_left, Rmax_right; [reflexivity | Lra.lra | Lra.lra].
  - rewrite Rabs_left by (destruct (Rtotal_order B 0) as [H|[H|H]]; Lra.lra).
    rewrite fdiv_nonzero by (apply Rmult_integral_contrapositive; split; Lra.lra).
    replace (B * caa / sa / (- B * sa))%R with (-1)%R
      by (rewrite <- Ea; field; split; Lra.lra).
    unfold clip; rewrite Rmin_left, Rmax_right; [reflexivity | Lra.lra | Lra.lra].
Qed.

(** X18: when the prices are an exact linear function of the lagged rates with a non-zero slope, and the rates vary, the correlation shown is 1 for a positive slope and -1 for a negative one. *)
Theorem linear_prices_corr_sign df sel s e k rd w c (alpha beta : Q) :
  predictor df sel s e k = Report rd w c ->
  (forall p, In p w -> snd p == alpha + beta * fst p)%Q ->
  ~ (sxy (map fst w) (map fst w) == 0)%Q ->
  ~ (beta == 0)%Q ->
  c = Num (if Rlt_dec 0 (Q2R beta) then 1 else -1)%R.
Proof.
  intros Hrun Hlin Hx Hb.
  pose proof (report_nonempty _ _ _ _ _ _ _ _ Hrun) as Hne.
  destruct (predictor_report_inv _ _ _ _ _ _ _ _ Hrun) as [_ [Hlen [Hw ->]]].
  assert (H2 : (2 <= List.length w)%nat) by (rewrite (to_numeric_length _ _ Hw); lia).
  pose proof (qlen_w_nz w Hne) as Hn.
  set (a := map fst w); set (b := map snd w).
  assert (Hmb : (mean b == alpha + beta * mean a)%Q).
  { unfold mean, a, b.
    assert (El : qlen (map snd w) = qlen w) by (unfold qlen; now rewrite length_map).
    assert (El' : qlen (map fst w) = qlen w) by (unfold qlen; now rewrite length_map).
    rewrite El, El'.
    rewrite (qsum_ext snd (fun p => alpha + (beta * fst p + 0 * fst p + 0 * fst p))%Q w)
      by (intros p Hp; rewrite (Hlin p Hp); ring).
    rewrite (qsum_affine alpha beta 0 0 fst fst fst w); field; exact Hn. }
  assert (Hab : (sxy a b == beta * sxy a a)%Q).
  { unfold a, b; rewrite !sxy_map; fold a b.
    rewrite <- qsum_scale; apply qsum_ext; intros p Hp.
    rewrite (Hlin p Hp), Hmb; ring. }
  assert (Hbb : (sxy b b == beta * beta * sxy a a)%Q).
  { unfold a, b; rewrite !sxy_map; fold a b.
    rewrite <- qsum_scale; apply qsum_ext; intros p Hp.
    rewrite (Hlin p Hp), Hmb; ring. }
  assert (Ecab : cov a b = (Q2R beta * cov a a)%R).
  { unfold cov; rewrite <- Q2R_mult; apply Qeq_eqR.
    rewrite Hab; unfold Qdiv; ring. }
  assert (Ecbb : cov b b = (Q2R beta * Q2R beta * cov a a)%R).
  { unfold cov; rewrite <- !Q2R_mult; apply Qeq_eqR.
    assert (El : qlen b = qlen a) by (unfold qlen, a, b; now rewrite !length_map).
    rewrite El, Hbb; unfold Qdiv; ring. }
  unfold corrcoef; fold a b; rewrite Ecab, Ecbb.
  apply corr_scaled.
  - assert (Hy : ~ (sxy (map snd w) (map snd w) == 0)%Q).
    { fold b a; rewrite Hbb; intros Z.
      destruct (Qmult_integral _ _ Z) as [Z'|Z']; [|exact (Hx Z')].
      destruct (Qmult_integral _ _ Z'); exact (Hb H). }
    exact (cov_self_pos w H2 Hx Hy fst Hx).
  - intros E; apply Hb, eqR_Qeq; rewrite E; unfold Q2R; simpl; Lra.lra.
Qed.

Lemma linear_prices_corr_sign_witness :
  predictor table_a "A" 1 3 0
  = Report (region_data table_a "A" 1 3 0) [(1, 10); (2, 20); (3, 30)]%Q
      (corrcoef (map fst [(1, 10); (2, 20); (3, 30)]%Q) (map snd [(1, 10); (2, 20); (3, 30)]%Q))
  /\ corrcoef (map fst [(1, 10); (2, 20); (3, 30)]%Q) (map snd [(1, 10); (2, 20); (3, 30)]%Q)
     = Num (if Rlt_dec 0 (Q2R 10) then 1 else -1)%R.
Proof.
  assert (H : predictor table_a "A" 1 3 0
              = Report (region_data table_a "A" 1 3 0) [(1, 10); (2, 20); (3, 30)]%Q
                  (corrcoef (map fst [(1, 10); (2, 20); (3, 30)]%Q)
                            (map snd [(1, 10); (2, 20); (3, 30)]%Q)))
    by (apply predictor_report; [reflexivity | vm_compute; lia | vm_compute; reflexivity]).
  split; [exact H|].
  refine (linear_prices_corr_sign _ _ _ _ _ _ _ _ 0 10 H _ _ _).
  - simpl; intros p [<-|[<-|[<-|[]]]]; vm_compute; reflexivity.
  - vm_compute; discriminate.
  - vm_compute; discriminate.
Defined.

(** ** The options of the period slider *)

Open Scope Z_scope.

Lemma label_lt a b :
  1000 <= ts_year a <= 9999 -> 1 <= ts_month a <= 12 ->
  1000 <= ts_year b <= 9999 -> 1 <= ts_month b <= 12 ->
  String.compare (strftime_ym a) (strftime_ym b) = Lt
  <-> 12 * ts_year a + ts_month a < 12 * ts_year b + ts_month b.
Proof.
  intros; rewrite compare_label by assumption.
  zcmp_cases; split; intros; try discriminate; try lia; reflexivity.
Qed.

(** X2: for dates with four-digit years, the options of the period slider (line 54) are the 년월 labels of the data, each exactly once, and their sorted order is chronological order. *)
Theorem month_options_chronological dates :
  Forall (fun d => 1000 <= ts_year d <= 9999 /\ 1 <= ts_month d <= 12) dates ->
  NoDup (ym_options dates)
  /\ (forall x, In x (ym_options dates) <-> exists d, In d dates /\ x = strftime_ym d)
  /\ Sorted (fun a b => exists d1 d2, In d1 dates /\ In d2 dates
                        /\ a = strftime_ym d1 /\ b = strftime_ym d2
                        /\ 12 * ts_year d1 + ts_month d1 < 12 * ts_year d2 + ts_month d2)
       (ym_options dates).
Proof.
  intros Hv; rewrite Forall_forall in Hv.
  assert (Hn : NoDup (ym_options dates)) by (apply nodup_py_sorted, nodup_unique).
  split; [exact Hn|]; split; [apply in_ym_options|].
  apply StronglySorted_Sorted.
  apply (strongly_weaken_in (fun a b => String.compare a b = Lt)).
  - intros a b Ha Hb Hab.
    apply in_ym_options in Ha as [d1 [H1 ->]]; apply in_ym_options in Hb as [d2 [H2 ->]].
    exists d1, d2; do 4 (split; [auto|]).
    destruct (Hv d1 H1), (Hv d2 H2); now apply label_lt.
  - apply Sorted_StronglySorted; [intros a b c; apply string_compare_lt_trans|].
    apply sorted_strict; [apply py_sorted_sorted|exact Hn].
Qed.

Lemma month_options_chronological_witness :
  Forall (fun d => 1000 <= ts_year d <= 9999 /\ 1 <= ts_month d <= 12)
    [mkTs 2023 11 1; mkTs 2022 3 1; mkTs 2023 2 1; mkTs 2023 11 1]
  /\ ym_options [mkTs 2023 11 1; mkTs 2022 3 1; mkTs 2023 2 1; mkTs 2023 11 1]
     = ["2022년 03월"; "2023년 02월"; "2023년 11월"]%string
  /\ NoDup (ym_options [mkTs 2023 11 1; mkTs 2022 3 1; mkTs 2023 2 1; mkTs 2023 11 1]).
Proof.
  assert (H : Forall (fun d => 1000 <= ts_year d <= 9999 /\ 1 <= ts_month d <= 12)
                [mkTs 2023 11 1; mkTs 2022 3 1; mkTs 2023 2 1; mkTs 2023 11 1])
    by (repeat constructor; cbn; lia).
  split; [exact H|]; split; [vm_compute; reflexivity|].
  exact (proj1 (month_options_chronological _ H)).
Defined.

(** X1: for a date with a four-digit year and a month in 1..12, [ym_to_date] (lines 55-56) maps the 년월 label that line 41 writes for it back to the first day of its month. *)
Theorem ym_label_round_trip d :
  1000 <= ts_year d <= 9999 -> 1 <= ts_month d <= 12 ->
  ym_to_date (strftime_ym d) = Some (mkTs (ts_year d) (ts_month d) 1).
Proof. exact (ym_to_date_strftime d). Qed.

Lemma ym_label_round_trip_witness :
  (1000 <= ts_year (mkTs 2023 5 17) <= 9999 /\ 1 <= ts_month (mkTs 2023 5 17) <= 12)
  /\ strftime_ym (mkTs 2023 5 17) = "2023년 05월"%string
  /\ ym_to_date (strftime_ym (mkTs 2023 5 17)) = Some (mkTs 2023 5 1).
Proof.
  split; [cbn; lia|]; split; [vm_compute; reflexivity|].
  apply (ym_label_round_trip (mkTs 2023 5 17)); cbn; lia.
Defined.

Lemma default_period_latest_month_witness :
  (mkTs 2023 1 1 :: mkTs 2023 3 15 :: nil) <> []
  /\ Forall (fun d => 1000 <= ts_year d <= 9999 /\ 1 <= ts_month d <= 12 /\ 1 <= ts_day d)
       [mkTs 2023 1 1; mkTs 2023 3 15]
  /\ in_period (mkTs 2023 1 1) (mkTs 2023 3 1) (mkTs 2023 3 15) = false
  /\ exists first last start_date end_date,
    In first [mkTs 2023 1 1; mkTs 2023 3 15] /\ In last [mkTs 2023 1 1; mkTs 2023 3 15]
    /\ slider_default (ym_options [mkTs 2023 1 1; mkTs 2023 3 15])
       = Some (strftime_ym first, strftime_ym last)
    /\ ym_to_date (strftime_ym first) = Some start_date
    /\ ym_to_date (strftime_ym last) = Some end_date
    /\ forall d, In d [mkTs 2023 1 1; mkTs 2023 3 15] ->
         12 * ts_year first + ts_month first <= 12 * ts_year d + ts_month d
         <= 12 * ts_year last + ts_month last
         /\ (in_period start_date end_date d = true
             <-> 12 * ts_year d + ts_month d < 12 * ts_year last + ts_month last
                 \/ ts_day d = 1).
Proof.
  assert (H : Forall (fun d => 1000 <= ts_year d <= 9999 /\ 1 <= ts_month d <= 12 /\ 1 <= ts_day d)
                [mkTs 2023 1 1; mkTs 2023 3 15]) by (repeat constructor; cbn; lia).
  split; [discriminate|]; split; [exact H|]; split; [reflexivity|].
  refine (default_period_latest_month _ _ H); discriminate.
Defined.

Close Scope Z_scope.
